(** * hasborisjohnsonresignedyet: the static-site stack of [index.ts]

    [index.ts] is a Pulumi program.  Running it evaluates the module top to
    bottom; every [new aws.X(name, args, opts)] registers one resource
    declaration with the Pulumi runtime, and [crawlDirectory] walks the
    [www] directory and registers one [BucketObject] per regular file.

    The embedding keeps that shape:
    - the local disk is a tree of [node]s, a directory listing its entries
      in the order [fs.readdirSync] returns them;
    - the declarations registered so far are the state of a small
      state-and-exception monad [M]; an exception of [fs.readdirSync] or
      [fs.statSync] stops the program and leaves the state as it was
      (what was registered stays registered);
    - a tree has no cycles: symbolic links that loop back are outside the
      model;
    - the arguments of a declaration are JavaScript values ([value]), with
      the deferred outputs of another resource ([certificate.arn]) kept
      symbolic. *)

From Stdlib Require Import List String Ascii ZArith Bool Permutation Lia.
Import ListNotations.
Open Scope string_scope.
Set Warnings "-register-all".

(* ================================================================== *)
(** ** The local disk *)

(** What [fs.statSync] (which follows symbolic links) and
    [fs.readdirSync] can observe of a path. *)
Inductive node : Type :=
| File : node
    (** [stat.isFile()] *)
| Directory : list (string * node) -> node
    (** [stat.isDirectory()]; the names and what they lead to, in
        listing order *)
| Locked : node
    (** [stat.isDirectory()], but listing it is denied (EACCES) *)
| Special : node
    (** a FIFO, socket or device: neither [isFile()] nor [isDirectory()] *)
| Dangling : node.
    (** a symbolic link to nothing: [fs.statSync] throws ENOENT *)

Inductive fs_error : Type :=
| ENOENT : string -> fs_error
| ENOTDIR : string -> fs_error
| EACCES : string -> fs_error.

Inductive result (A : Type) : Type :=
| Ok : A -> result A
| Throw : fs_error -> result A.
Arguments Ok {A} _.
Arguments Throw {A} _.

(** The two observers of [fs.Stats] the program calls. *)
Record Stats : Type := mkStats { isDirectory : bool; isFile : bool }.

(** [fs.statSync(path)], [n] being what [path] leads to. *)
Definition statSync (path : string) (n : node) : result Stats :=
  match n with
  | File => Ok (mkStats false true)
  | Directory _ => Ok (mkStats true false)
  | Locked => Ok (mkStats true false)
  | Special => Ok (mkStats false false)
  | Dangling => Throw (ENOENT path)
  end.

(** [fs.readdirSync(path)]; [None] is a path that does not exist. *)
Definition readdirSync (path : string) (n : option node)
  : result (list (string * node)) :=
  match n with
  | None => Throw (ENOENT path)
  | Some (Directory es) => Ok es
  | Some Locked => Throw (EACCES path)
  | Some Dangling => Throw (ENOENT path)
  | Some File => Throw (ENOTDIR path)
  | Some Special => Throw (ENOTDIR path)
  end.

(* ================================================================== *)
(** ** JavaScript values and resource declarations *)

Inductive rtype : Type :=
| S3Bucket                   (* aws.s3.Bucket *)
| S3BucketObject             (* aws.s3.BucketObject *)
| Route53Zone                (* aws.route53.Zone *)
| AwsProvider                (* aws.Provider *)
| AcmCertificate             (* aws.acm.Certificate *)
| Route53Record              (* aws.route53.Record *)
| AcmCertificateValidation   (* aws.acm.CertificateValidation *)
| CloudfrontDistribution.    (* aws.cloudfront.Distribution *)

(** The object a [new] expression evaluates to.  Pulumi identifies a
    resource by its type and logical name. *)
Record resource : Type := mkResource { r_type : rtype; r_name : string }.

(** One step of a property access on a deferred output. *)
Inductive accessor : Type :=
| Field : string -> accessor
| Index : nat -> accessor.

Inductive value : Type :=
| VUndefined : value
| VNull : value
| VBool : bool -> value
| VNum : Z -> value
| VStr : string -> value
| VArr : list value -> value
| VObj : list (string * value) -> value
| VRes : resource -> value
    (** a resource object passed as an argument ([bucket: borisBucket]) *)
| VOut : resource -> list accessor -> value
    (** a deferred output of a resource ([certificate.arn]) *)
| VFileAsset : string -> value.
    (** [new pulumi.asset.FileAsset(path)] *)

Record decl : Type := mkDecl {
  d_type : rtype;
  d_name : string;
  d_args : value;
  d_parent : option resource;     (* opts.parent *)
  d_provider : option resource    (* opts.provider *)
}.

(** The third argument of a resource constructor. *)
Record opts : Type := mkOpts {
  o_parent : option resource;
  o_provider : option resource
}.
Definition no_opts : opts := mkOpts None None.

(* ================================================================== *)
(** ** The monad of the program: registered declarations and exceptions *)

Definition M (A : Type) : Type := list decl -> list decl * result A.

Definition ret {A : Type} (a : A) : M A := fun s => (s, Ok a).

Definition bind {A B : Type} (m : M A) (k : A -> M B) : M B :=
  fun s =>
    match m s with
    | (s', Ok a) => k a s'
    | (s', Throw e) => (s', Throw e)
    end.

Definition lift {A : Type} (r : result A) : M A := fun s => (s, r).

Notation "x <- m ;; k" := (bind m (fun x => k))
  (at level 61, m at next level, right associativity).
Notation "m ;;; k" := (bind m (fun _ => k))
  (at level 61, right associativity).

(** [new T(name, args, opts)]: registers the declaration and evaluates to
    the resource object. *)
Definition new (t : rtype) (name : string) (args : value) (o : opts)
  : M resource :=
  fun s => ((s ++ [mkDecl t name args (o_parent o) (o_provider o)])%list,
            Ok (mkResource t name)).

(** [if (c) { m }] *)
Definition when (c : bool) (m : M unit) : M unit :=
  if c then m else ret tt.

(* ================================================================== *)
(** ** JavaScript operators the program uses *)

(** ToBoolean. *)
Definition truthy (v : value) : bool :=
  match v with
  | VUndefined | VNull => false
  | VBool b => b
  | VNum z => negb (Z.eqb z 0)
  | VStr s => negb (String.eqb s "")
  | _ => true
  end.

(** [a || b] *)
Definition js_or (a b : value) : value := if truthy a then a else b.

(** [`${r}`] for a resource object [r]: neither [pulumi.Resource] nor the
    classes of [@pulumi/aws] define [toString], so
    [Object.prototype.toString] answers, whatever the resource. *)
Definition resource_toString (r : resource) : string := "[object Object]".

(** [s.replace(pat, rep)] with a string pattern: the first occurrence of
    [pat] in [s] is replaced ([rep] without [$] patterns). *)
Fixpoint js_replace (pat rep s : string) : string :=
  if String.prefix pat s
  then rep ++ String.substring (String.length pat)
                               (String.length s - String.length pat) s
  else match s with
       | EmptyString => s
       | String c s' => String c (js_replace pat rep s')
       end.

(* ================================================================== *)
(** ** index.ts *)

Definition website : string := "hasborisjohnsonresignedyet.com".

(** [crawlDirectory(dir, f)], [n] being what [dir] leads to.
    The [for] loop is the inner [fix]. *)
Fixpoint crawlDirectory_at (dir : string) (n : node)
    (f : string -> M unit) {struct n} : M unit :=
  match n with
  | Directory files =>
      (fix loop (files : list (string * node)) : M unit :=
         match files with
         | [] => ret tt
         | (file, child) :: rest =>
             let filePath := dir ++ "/" ++ file in
             stat <- lift (statSync filePath child) ;;
             when (isDirectory stat) (crawlDirectory_at filePath child f) ;;;
             when (isFile stat) (f filePath) ;;;
             loop rest
         end) files
  | Locked => lift (Throw (EACCES dir))
  | Dangling => lift (Throw (ENOENT dir))
  | File => lift (Throw (ENOTDIR dir))
  | Special => lift (Throw (ENOTDIR dir))
  end.

Definition crawlDirectory (dir : string) (n : option node)
    (f : string -> M unit) : M unit :=
  match n with
  | None => lift (Throw (ENOENT dir))
  | Some n => crawlDirectory_at dir n f
  end.

(** What the run depends on besides the text of the program. *)
Record world : Type := mkWorld {
  wwwDir : string;
    (** the value of [path.join(process.cwd(), "www")] *)
  www : option node;
    (** what that path leads to on the local disk *)
  mime_getType : string -> option string
    (** [mime.getType] of the [mime] package: a media type, or [null]
        ([None]) *)
}.

(** A [string | null] as a JavaScript value. *)
Definition nullable (o : option string) : value :=
  match o with
  | Some t => VStr t
  | None => VNull
  end.

(** The callback handed to [crawlDirectory]. *)
Definition upload (w : world) (borisBucket : resource) (filePath : string)
  : M unit :=
  let relativeFilePath := js_replace (wwwDir w ++ "/") "" filePath in
  _ <- new S3BucketObject relativeFilePath
         (VObj [ ("key", VStr relativeFilePath);
                 ("acl", VStr "public-read");
                 ("bucket", VRes borisBucket);
                 ("contentType", js_or (nullable (mime_getType w filePath)) VUndefined);
                 ("source", VFileAsset filePath) ])
         (mkOpts (Some borisBucket) None) ;;
  ret tt.

Definition cacheTimeout : Z := 30.

(** The module body, top to bottom. *)
Definition program (w : world) : M unit :=
  borisBucket <- new S3Bucket "borisBucket"
    (VObj [ ("acl", VStr "public-read");
            ("bucket", VStr website);
            ("website", VObj [ ("indexDocument", VStr "index.html") ]) ])
    no_opts ;;
  crawlDirectory (wwwDir w) (www w) (upload w borisBucket) ;;;
  logsBucket <- new S3Bucket "boriswebsiteRequestLogs"
    (VObj [ ("acl", VStr "private") ])
    no_opts ;;
  hostedZone <- new Route53Zone "boriswebsite-hotedzone"
    (VObj [ ("name", VStr website) ])
    no_opts ;;
  eastRegion <- new AwsProvider "east"
    (VObj [ ("region", VStr "us-east-1") ])
    no_opts ;;
  certificate <- new AcmCertificate "cert"
    (VObj [ ("domainName", VStr website);
            ("subjectAlternativeNames", VArr [ VStr ("*." ++ website) ]);
            ("validationMethod", VStr "DNS");
            ("tags", VObj [ ("Name", VStr "piers.dev") ]) ])
    (mkOpts None (Some eastRegion)) ;;
  certValidationRecord <- new Route53Record "certValidationRecord"
    (VObj [ ("name", VOut certificate [ Field "domainValidationOptions";
                                        Index 0;
                                        Field "resourceRecordName" ]);
            ("zoneId", VOut hostedZone [ Field "zoneId" ]);
            ("type", VOut certificate [ Field "domainValidationOptions";
                                        Index 0;
                                        Field "resourceRecordType" ]);
            ("records",
             VArr [ VOut certificate [ Field "domainValidationOptions";
                                       Index 0;
                                       Field "resourceRecordValue" ] ]);
            ("ttl", VNum 60) ])
    (mkOpts (Some hostedZone) None) ;;
  certValidation <- new AcmCertificateValidation "certValidation"
    (VObj [ ("certificateArn", VOut certificate [ Field "arn" ]);
            ("validationRecordFqdns",
             VArr [ VOut certValidationRecord [ Field "fqdn" ] ]) ])
    (mkOpts None (Some eastRegion)) ;;
  cdn <- new CloudfrontDistribution "cdn"
    (VObj [ ("enabled", VBool true);
            ("aliases", VArr [ VStr website ]);
            ("origins",
             VArr [ VObj [
               ("originId", VOut borisBucket [ Field "arn" ]);
               ("domainName", VOut borisBucket [ Field "websiteEndpoint" ]);
               ("customOriginConfig",
                VObj [ ("originProtocolPolicy", VStr "http-only");
                       ("httpPort", VNum 80);
                       ("httpsPort", VNum 443);
                       ("originSslProtocols", VArr [ VStr "TLSv1.2" ]) ]) ] ]);
            ("defaultRootObject", VStr "index.html");
            ("defaultCacheBehavior",
             VObj [ ("targetOriginId", VOut borisBucket [ Field "arn" ]);
                    ("viewerProtocolPolicy", VStr "redirect-to-https");
                    ("allowedMethods",
                     VArr [ VStr "GET"; VStr "HEAD"; VStr "OPTIONS" ]);
                    ("cachedMethods",
                     VArr [ VStr "GET"; VStr "HEAD"; VStr "OPTIONS" ]);
                    ("forwardedValues",
                     VObj [ ("cookies", VObj [ ("forward", VStr "none") ]);
                            ("queryString", VBool false) ]);
                    ("minTtl", VNum 0);
                    ("defaultTtl", VNum cacheTimeout);
                    ("maxTtl", VNum cacheTimeout) ]);
            ("priceClass", VStr "PriceClass_All");
            ("customErrorResponses",
             VArr [ VObj [ ("errorCode", VNum 404);
                           ("responseCode", VNum 404);
                           ("responsePagePath", VStr "/404.html") ] ]);
            ("restrictions",
             VObj [ ("geoRestriction",
                     VObj [ ("restrictionType", VStr "none") ]) ]);
            ("viewerCertificate",
             VObj [ ("acmCertificateArn", VOut certificate [ Field "arn" ]);
                    ("sslSupportMethod", VStr "sni-only") ]);
            ("loggingConfig",
             VObj [ ("bucket", VOut logsBucket [ Field "bucketDomainName" ]);
                    ("includeCookies", VBool false);
                    ("prefix",
                     VStr (resource_toString borisBucket ++ "/")) ]) ])
    no_opts ;;
  apexRecord <- new Route53Record "apexRecord"
    (VObj [ ("zoneId", VOut hostedZone [ Field "zoneId" ]);
            ("name", VStr website);
            ("type", VStr "A");   (* aws.route53.RecordTypes.A *)
            ("aliases",
             VArr [ VObj [ ("name", VOut cdn [ Field "domainName" ]);
                           ("zoneId", VOut cdn [ Field "hostedZoneId" ]);
                           ("evaluateTargetHealth", VBool true) ] ]) ])
    no_opts ;;
  ret tt.

(** One run of the program: the declarations registered, and whether the
    module body ran to its end. *)
Definition run (w : world) : list decl * result unit := program w [].

Definition declarations (w : world) : list decl := fst (run w).
Definition outcome (w : world) : result unit := snd (run w).

(* ================================================================== *)
(** ** Reading the model back *)

(** The [for] loop of [crawlDirectory] under a name of its own. *)
Fixpoint crawl_entries (dir : string) (f : string -> M unit)
    (files : list (string * node)) : M unit :=
  match files with
  | [] => ret tt
  | (file, child) :: rest =>
      let filePath := dir ++ "/" ++ file in
      stat <- lift (statSync filePath child) ;;
      when (isDirectory stat) (crawlDirectory_at filePath child f) ;;;
      when (isFile stat) (f filePath) ;;;
      crawl_entries dir f rest
  end.

(** [f] called on each path in turn. *)
Fixpoint for_each (f : string -> M unit) (paths : list string) : M unit :=
  match paths with
  | [] => ret tt
  | p :: rest => f p ;;; for_each f rest
  end.

(** The paths of the regular files below a directory, relative to it, as
    lists of segments and in the order the walk meets them. *)
Fixpoint files_below (n : node) : list (list string) :=
  match n with
  | Directory files =>
      (fix each (files : list (string * node)) : list (list string) :=
         match files with
         | [] => []
         | (file, child) :: rest =>
             (match child with
              | File => [[file]]
              | _ => map (cons file) (files_below child)
              end ++ each rest)%list
         end) files
  | _ => []
  end.

Fixpoint files_of_entries (files : list (string * node))
  : list (list string) :=
  match files with
  | [] => []
  | (file, child) :: rest =>
      (match child with
       | File => [[file]]
       | _ => map (cons file) (files_below child)
       end ++ files_of_entries rest)%list
  end.

(** The number of regular files in a tree. *)
Fixpoint count_files (n : node) : nat :=
  match n with
  | File => 1
  | Directory files =>
      (fix each (files : list (string * node)) : nat :=
         match files with
         | [] => 0
         | (_, child) :: rest => count_files child + each rest
         end) files
  | _ => 0
  end.

(** A tree the walk gets through: no entry on which [fs.statSync] throws,
    no directory whose listing is denied. *)
Fixpoint walkable (n : node) : bool :=
  match n with
  | File => true
  | Special => true
  | Directory files =>
      (fix each (files : list (string * node)) : bool :=
         match files with
         | [] => true
         | (_, child) :: rest => walkable child && each rest
         end) files
  | Locked => false
  | Dangling => false
  end.

Fixpoint walkable_entries (files : list (string * node)) : bool :=
  match files with
  | [] => true
  | (_, child) :: rest => walkable child && walkable_entries rest
  end.

Fixpoint count_files_entries (files : list (string * node)) : nat :=
  match files with
  | [] => 0
  | (_, child) :: rest => count_files child + count_files_entries rest
  end.

(** The asset root is a directory the walk gets through. *)
Definition walkable_root (n : option node) : bool :=
  match n with
  | Some (Directory files) => walkable (Directory files)
  | _ => false
  end.

(** A path from its segments: forward slashes between them, none in
    front. *)
Definition join_segments (segs : list string) : string :=
  String.concat "/" segs.

(** The absolute path of a file from the directory and its relative
    path. *)
Definition under (dir : string) (segs : list string) : string :=
  dir ++ "/" ++ join_segments segs.

Definition borisBucket : resource := mkResource S3Bucket "borisBucket".

(** The declaration [upload] registers for the file at [filePath]. *)
Definition object_of (w : world) (filePath : string) : decl :=
  let relativeFilePath := js_replace (wwwDir w ++ "/") "" filePath in
  mkDecl S3BucketObject relativeFilePath
    (VObj [ ("key", VStr relativeFilePath);
            ("acl", VStr "public-read");
            ("bucket", VRes borisBucket);
            ("contentType", js_or (nullable (mime_getType w filePath)) VUndefined);
            ("source", VFileAsset filePath) ])
    (Some borisBucket) None.

(** Property access [v.k] on an object literal. *)
Fixpoint lookup (k : string) (kvs : list (string * value)) : value :=
  match kvs with
  | [] => VUndefined
  | (k', v) :: rest => if String.eqb k k' then v else lookup k rest
  end.

Definition field (k : string) (v : value) : value :=
  match v with
  | VObj kvs => lookup k kvs
  | _ => VUndefined
  end.

Definition rtype_eqb (a b : rtype) : bool :=
  match a, b with
  | S3Bucket, S3Bucket | S3BucketObject, S3BucketObject
  | Route53Zone, Route53Zone | AwsProvider, AwsProvider
  | AcmCertificate, AcmCertificate | Route53Record, Route53Record
  | AcmCertificateValidation, AcmCertificateValidation
  | CloudfrontDistribution, CloudfrontDistribution => true
  | _, _ => false
  end.

Definition is_object (d : decl) : bool := rtype_eqb (d_type d) S3BucketObject.

(** The object declarations of a run, and the others (the skeleton). *)
Definition objects (ds : list decl) : list decl := filter is_object ds.
Definition skeleton (ds : list decl) : list decl :=
  filter (fun d => negb (is_object d)) ds.

Definition key_of (d : decl) : value := field "key" (d_args d).
Definition source_of (d : decl) : value := field "source" (d_args d).

(** The storage key as a string. *)
Definition key_string (d : decl) : string :=
  match key_of d with
  | VStr k => k
  | _ => ""
  end.
Definition contentType_of (d : decl) : value := field "contentType" (d_args d).

(** The declaration of line 23, and the eight of lines 51 to 167, as the
    program registers them (read off a run over an empty [www]). *)
Definition bucket_decl : decl :=
  Eval cbv in
    hd (mkDecl S3Bucket "" VUndefined None None)
       (fst (program (mkWorld "" (Some (Directory [])) (fun _ => None)) [])).

Definition infrastructure : list decl :=
  Eval cbv in
    tl (fst (program (mkWorld "" (Some (Directory [])) (fun _ => None)) [])).

Definition eastRegion : resource := mkResource AwsProvider "east".
Definition certificate : resource := mkResource AcmCertificate "cert".
Definition certValidation : resource :=
  mkResource AcmCertificateValidation "certValidation".
Definition cdn : resource := mkResource CloudfrontDistribution "cdn".

(** The resource object a declaration gives rise to. *)
Definition handle (d : decl) : resource := mkResource (d_type d) (d_name d).

(** [certificate.domainValidationOptions[0].k] *)
Definition first_validation_option (k : string) : value :=
  VOut certificate [ Field "domainValidationOptions"; Index 0; Field k ].

(** A DNS record that answers the certificate's validation challenge. *)
Definition is_validation_record (d : decl) : Prop :=
  d_type d = Route53Record /\
  field "name" (d_args d) = first_validation_option "resourceRecordName" /\
  field "type" (d_args d) = first_validation_option "resourceRecordType" /\
  field "records" (d_args d)
    = VArr [ first_validation_option "resourceRecordValue" ].

(** A DNS record with an alias target, and the name the first target
    points at. *)
Definition alias_target (d : decl) : value :=
  match field "aliases" (d_args d) with
  | VArr (a :: _) => field "name" a
  | _ => VUndefined
  end.

Definition is_alias_record_to (target : value) (d : decl) : Prop :=
  d_type d = Route53Record /\ alias_target d = target.

Definition exactly_one {A : Type} (P : A -> Prop) (l : list A) : Prop :=
  exists pre x post,
    l = (pre ++ x :: post)%list /\ P x /\
    Forall (fun y => ~ P y) (pre ++ post)%list.

(** The declarations the regional provider alias is for. *)
Definition needs_east (t : rtype) : bool :=
  match t with
  | AcmCertificate | AcmCertificateValidation => true
  | _ => false
  end.

(** [cdn.loggingConfig.prefix] *)
Definition logging_prefix (d : decl) : value :=
  field "prefix" (field "loggingConfig" (d_args d)).

(* ------------------------------------------------------------------ *)
(** *** Names as a file system gives them *)

Definition slash : ascii := "/"%char.

Fixpoint slash_free (s : string) : bool :=
  match s with
  | EmptyString => true
  | String c s' => negb (Ascii.eqb c slash) && slash_free s'
  end.

(** A name of a directory entry: not empty, no separator in it. *)
Definition entry_name (s : string) : bool :=
  negb (String.eqb s "") && slash_free s.

Fixpoint mem_string (x : string) (l : list string) : bool :=
  match l with
  | [] => false
  | y :: l' => String.eqb x y || mem_string x l'
  end.

(** Every directory of the tree lists entry names, each once. *)
Fixpoint well_named (n : node) : bool :=
  match n with
  | Directory files =>
      (fix each (files : list (string * node)) : bool :=
         match files with
         | [] => true
         | (file, child) :: rest =>
             entry_name file && negb (mem_string file (map fst rest))
             && well_named child && each rest
         end) files
  | _ => true
  end.

Fixpoint well_named_entries (files : list (string * node)) : bool :=
  match files with
  | [] => true
  | (file, child) :: rest =>
      entry_name file && negb (mem_string file (map fst rest))
      && well_named child && well_named_entries rest
  end.

Definition starts_with_slash (s : string) : bool :=
  match s with
  | String c _ => Ascii.eqb c slash
  | EmptyString => false
  end.

(* ------------------------------------------------------------------ *)
(** *** The same tree, listed in another order *)

(** [fs.readdirSync] promises no order: two listings of an unchanged
    directory hold the same entries, each leading to the same thing. *)
Inductive same_tree : node -> node -> Prop :=
| same_File : same_tree File File
| same_Locked : same_tree Locked Locked
| same_Special : same_tree Special Special
| same_Dangling : same_tree Dangling Dangling
| same_Directory : forall files files',
    same_entries files files' ->
    same_tree (Directory files) (Directory files')
with same_entries : list (string * node) -> list (string * node) -> Prop :=
| same_nil : same_entries [] []
| same_cons : forall file child child' rest rest',
    same_tree child child' ->
    same_entries rest rest' ->
    same_entries ((file, child) :: rest) ((file, child') :: rest')
| same_swap : forall e1 e2 rest rest',
    same_entries rest rest' ->
    same_entries (e1 :: e2 :: rest) (e2 :: e1 :: rest')
| same_trans : forall files1 files2 files3,
    same_entries files1 files2 ->
    same_entries files2 files3 ->
    same_entries files1 files3.

Scheme same_tree_mut := Induction for same_tree Sort Prop
  with same_entries_mut := Induction for same_entries Sort Prop.
Combined Scheme same_tree_entries_ind from same_tree_mut, same_entries_mut.

(** Two worlds that differ in the listing order only. *)
Definition same_world (w1 w2 : world) : Prop :=
  wwwDir w1 = wwwDir w2 /\
  (forall p, mime_getType w1 p = mime_getType w2 p) /\
  match www w1, www w2 with
  | Some t1, Some t2 => same_tree t1 t2
  | None, None => True
  | _, _ => False
  end.

(* ------------------------------------------------------------------ *)
(** *** Worlds for the examples *)

Module Sample.

Definition has (p : ascii -> bool) : string -> bool :=
  fix has (s : string) : bool :=
    match s with
    | EmptyString => false
    | String c s' => p c || has s'
    end.

(** What is left of [s] after the last character that satisfies [p]
    ([s] itself if there is none). *)
Fixpoint after_last (p : ascii -> bool) (s : string) : string :=
  match s with
  | EmptyString => EmptyString
  | String c s' =>
      if has p s' then after_last p s'
      else if p c then s' else s
  end.

Definition lower_char (c : ascii) : ascii :=
  let n := nat_of_ascii c in
  if (65 <=? n)%nat && (n <=? 90)%nat then ascii_of_nat (n + 32) else c.

Fixpoint lower (s : string) : string :=
  match s with
  | EmptyString => EmptyString
  | String c s' => String (lower_char c) (lower s')
  end.

(** A few entries of the table of the [mime] package. *)
Definition types (ext : string) : option string :=
  if String.eqb ext "html" then Some "text/html"
  else if String.eqb ext "css" then Some "text/css"
  else if String.eqb ext "png" then Some "image/png"
  else if String.eqb ext "txt" then Some "text/plain"
  else None.

(** A lookup in the manner of [mime.getType], over [types]: the entry
    for the text after the last dot of the last path segment. *)
Definition getType (path : string) : option string :=
  let last :=
    lower (after_last (fun c => Ascii.eqb c "/" || Ascii.eqb c "\") path) in
  let ext := lower (after_last (fun c => Ascii.eqb c ".") last) in
  let hasPath := (String.length last <? String.length path)%nat in
  let hasDot := (String.length ext <? String.length last - 1)%nat in
  if hasDot || negb hasPath then types ext else None.

(** The site of the end-to-end scenario. *)
Definition site : node :=
  Directory [ ("index.html", File);
              ("404.html", File);
              ("css", Directory [ ("site.css", File) ]) ].

Definition site_world : world := mkWorld "/work/www" (Some site) getType.

(** No [www] directory at all. *)
Definition missing_world : world := mkWorld "/work/www" None getType.

(** A site with a FIFO, an unknown extension and a nested image. *)
Definition odd_site : node :=
  Directory [ ("img", Directory [ ("logo.png", File) ]);
              ("queue", Special);
              ("data.xyz", File);
              ("index.html", File) ].

Definition odd_world : world := mkWorld "/work/www" (Some odd_site) getType.

(** [site], listed in another order. *)
Definition site_relisted : node :=
  Directory [ ("css", Directory [ ("site.css", File) ]);
              ("index.html", File);
              ("404.html", File) ].

Definition relisted_world : world :=
  mkWorld "/work/www" (Some site_relisted) getType.

(** A site with a link to nothing between two files, one of them in a
    directory. *)
Definition broken_site : node :=
  Directory [ ("docs", Directory [ ("a.txt", File) ]);
              ("gone", Dangling);
              ("b.txt", File) ].

Definition broken_world : world :=
  mkWorld "/work/www" (Some broken_site) getType.

(** A callback that notes the path it is called on. *)
Definition note (path : string) : M unit :=
  fun s => ((s ++ [mkDecl S3BucketObject path VUndefined None None])%list,
            Ok tt).

End Sample.

(* ------------------------------------------------------------------ *)
(** *** Statements about a run *)

(** A run that fails having registered nothing. *)
Definition fails_with_nothing_registered (w : world) : Prop :=
  (exists e, outcome w = Throw e) /\ declarations w = [].

(** What the end-to-end scenario expects of each object declaration: key,
    content type and parent. *)
Definition object_summary (d : decl) : value * value * option resource :=
  (key_of d, contentType_of d, d_parent d).

Definition scenario_objects : list (value * value * option resource) :=
  [ (VStr "index.html", VStr "text/html", Some borisBucket);
    (VStr "404.html", VStr "text/html", Some borisBucket);
    (VStr "css/site.css", VStr "text/css", Some borisBucket) ].

(** The scenario's outcome, with [n] skeleton declarations. *)
Definition scenario_outcome (w : world) (n : nat) : Prop :=
  Permutation (map object_summary (objects (declarations w)))
              scenario_objects
  /\ List.length (objects (declarations w)) = 3
  /\ List.length (skeleton (declarations w)) = n.

(** The entries of the scenario's root. *)
Definition scenario_entries : list (string * node) :=
  [ ("index.html", File);
    ("404.html", File);
    ("css", Directory [ ("site.css", File) ]) ].

(* ------------------------------------------------------------------ *)
(** *** Callbacks, errors and references *)

(** A callback that returns, whatever the path and the state. *)
Definition never_throws (f : string -> M unit) : Prop :=
  forall p s, exists s', f p s = (s', Ok tt).

(** The path an error of the file system is about. *)
Definition error_path (e : fs_error) : string :=
  match e with
  | ENOENT p => p
  | ENOTDIR p => p
  | EACCES p => p
  end.

Definition resource_eqb (a b : resource) : bool :=
  rtype_eqb (r_type a) (r_type b) && String.eqb (r_name a) (r_name b).

Fixpoint mem_resource (r : resource) (l : list resource) : bool :=
  match l with
  | [] => false
  | r' :: l' => resource_eqb r r' || mem_resource r l'
  end.

(** The resources a value mentions: resource objects and the resources
    whose deferred outputs it holds. *)
Fixpoint refs (v : value) : list resource :=
  match v with
  | VRes r => [r]
  | VOut r _ => [r]
  | VArr items =>
      (fix each (items : list value) : list resource :=
         match items with
         | [] => []
         | item :: rest => (refs item ++ each rest)%list
         end) items
  | VObj kvs =>
      (fix each (kvs : list (string * value)) : list resource :=
         match kvs with
         | [] => []
         | (_, item) :: rest => (refs item ++ each rest)%list
         end) kvs
  | _ => []
  end.

Definition option_list {A : Type} (o : option A) : list A :=
  match o with
  | Some a => [a]
  | None => []
  end.

(** The resources a declaration refers to, in its arguments and its
    options. *)
Definition decl_refs (d : decl) : list resource :=
  (refs (d_args d) ++ option_list (d_parent d)
   ++ option_list (d_provider d))%list.

(** Every declaration of [ds] refers only to resources of [seen] or of
    declarations before it in [ds]. *)
Fixpoint declared_in_order (seen : list resource) (ds : list decl) : bool :=
  match ds with
  | [] => true
  | d :: rest =>
      forallb (fun r => mem_resource r seen) (decl_refs d)
      && declared_in_order (handle d :: seen) rest
  end.

(* ================================================================== *)
(** * Proofs *)

(** ** Induction over a tree and the listings in it *)

Section NodeInduction.

Variable P : node -> Prop.
Variable Q : list (string * node) -> Prop.
Hypothesis P_File : P File.
Hypothesis P_Locked : P Locked.
Hypothesis P_Special : P Special.
Hypothesis P_Dangling : P Dangling.
Hypothesis P_Directory : forall files, Q files -> P (Directory files).
Hypothesis Q_nil : Q [].
Hypothesis Q_cons : forall file child rest,
    P child -> Q rest -> Q ((file, child) :: rest).

Lemma node_listing_ind : forall n, P n.
Proof.
  fix IH 1.
  intros [ | files | | | ];
    [ exact P_File | | exact P_Locked | exact P_Special | exact P_Dangling ].
  apply P_Directory.
  induction files as [ | [file child] rest IHrest ].
  - exact Q_nil.
  - apply Q_cons; [ apply IH | exact IHrest ].
Qed.

Lemma listing_ind : forall files, Q files.
Proof.
  induction files as [ | [file child] rest IHrest ].
  - exact Q_nil.
  - apply Q_cons; [ apply node_listing_ind | exact IHrest ].
Qed.

End NodeInduction.

(** The nested loops are the named ones. *)
Lemma crawlDirectory_at_Directory dir files f :
  crawlDirectory_at dir (Directory files) f = crawl_entries dir f files.
Proof.
  induction files as [ | [file child] rest IH ]; [ reflexivity | ].
  simpl in *. rewrite IH. reflexivity.
Qed.

Lemma files_below_Directory files :
  files_below (Directory files) = files_of_entries files.
Proof.
  induction files as [ | [file child] rest IH ]; [ reflexivity | ].
  simpl in *. rewrite IH. reflexivity.
Qed.

Lemma count_files_Directory files :
  count_files (Directory files) = count_files_entries files.
Proof.
  induction files as [ | [file child] rest IH ]; [ reflexivity | ].
  simpl in *. rewrite IH. reflexivity.
Qed.

Lemma walkable_Directory files :
  walkable (Directory files) = walkable_entries files.
Proof.
  induction files as [ | [file child] rest IH ]; [ reflexivity | ].
  simpl in *. rewrite IH. reflexivity.
Qed.

Lemma well_named_Directory files :
  well_named (Directory files) = well_named_entries files.
Proof.
  induction files as [ | [file child] rest IH ]; [ reflexivity | ].
  simpl in *. rewrite IH. reflexivity.
Qed.

(** [crawlDirectory] is the source's text: list the directory, then loop
    over the names. *)
Lemma crawlDirectory_readdirSync dir n f s :
  crawlDirectory dir n f s
  = (files <- lift (readdirSync dir n) ;; crawl_entries dir f files) s.
Proof.
  destruct n as [ [ | files | | | ] | ]; try reflexivity.
  unfold crawlDirectory. rewrite crawlDirectory_at_Directory. reflexivity.
Qed.

(** ** Strings *)

Lemma append_assoc (a b c : string) : (a ++ b) ++ c = a ++ (b ++ c).
Proof. induction a as [ | x a IH ]; simpl; [ | rewrite IH ]; reflexivity. Qed.

Lemma length_append (a b : string) :
  String.length (a ++ b) = String.length a + String.length b.
Proof. induction a as [ | x a IH ]; simpl; [ | rewrite IH ]; reflexivity. Qed.

Lemma prefix_append (p s : string) : String.prefix p (p ++ s) = true.
Proof.
  induction p as [ | x p IH ]; simpl.
  - destruct s; reflexivity.
  - destruct (ascii_dec x x) as [ _ | ne ]; [ exact IH | now elim ne ].
Qed.

Lemma substring_whole (s : string) : String.substring 0 (String.length s) s = s.
Proof. induction s as [ | x s IH ]; simpl; [ | rewrite IH ]; reflexivity. Qed.

Lemma substring_append (p s : string) (m : nat) :
  String.substring (String.length p) m (p ++ s) = String.substring 0 m s.
Proof. induction p as [ | x p IH ]; simpl; [ reflexivity | exact IH ]. Qed.

Lemma js_replace_unfold (pat rep s : string) :
  js_replace pat rep s
  = if String.prefix pat s
    then rep ++ String.substring (String.length pat)
                                 (String.length s - String.length pat) s
    else match s with
         | EmptyString => s
         | String c s' => String c (js_replace pat rep s')
         end.
Proof. destruct s; reflexivity. Qed.

(** Replacing a pattern the string starts with removes that start. *)
Lemma js_replace_prefix (pat s : string) : js_replace pat "" (pat ++ s) = s.
Proof.
  rewrite js_replace_unfold, prefix_append, substring_append, length_append.
  replace (String.length pat + String.length s - String.length pat)
    with (String.length s) by lia.
  simpl. apply substring_whole.
Qed.

Lemma under_cons dir file segs :
  segs <> [] -> under dir (file :: segs) = under (dir ++ "/" ++ file) segs.
Proof.
  intros Hne. unfold under, join_segments.
  destruct segs as [ | seg segs ]; [ now elim Hne | ].
  change (String.concat "/" (file :: seg :: segs))
    with (file ++ "/" ++ String.concat "/" (seg :: segs)).
  now rewrite !append_assoc.
Qed.

Lemma under_single dir file : under dir [file] = dir ++ "/" ++ file.
Proof. reflexivity. Qed.

Lemma key_of_object_of w segs :
  key_of (object_of w (under (wwwDir w) segs)) = VStr (join_segments segs).
Proof.
  change (key_of (object_of w (under (wwwDir w) segs)))
    with (VStr (js_replace (wwwDir w ++ "/") "" (under (wwwDir w) segs))).
  unfold under. now rewrite <- append_assoc, js_replace_prefix.
Qed.

(** ** The monad *)

Lemma bind_ext {A B : Type} (m m' : M A) (k k' : A -> M B) s :
  m s = m' s ->
  (forall a s', k a s' = k' a s') ->
  bind m k s = bind m' k' s.
Proof.
  intros Hm Hk. unfold bind. rewrite Hm.
  destruct (m' s) as [s' [ a | e ]]; [ apply Hk | reflexivity ].
Qed.

Lemma bind_assoc {A B C : Type} (m : M A) (k : A -> M B) (h : B -> M C) s :
  bind (bind m k) h s = bind m (fun a => bind (k a) h) s.
Proof.
  unfold bind. destruct (m s) as [s' [ a | e ]]; reflexivity.
Qed.

Lemma bind_ret_r (m : M unit) s : (m ;;; ret tt) s = m s.
Proof.
  unfold bind, ret. destruct (m s) as [s' [ [] | e ]]; reflexivity.
Qed.

Lemma for_each_app f a b s :
  for_each f (a ++ b) s = (for_each f a ;;; for_each f b) s.
Proof.
  revert s. induction a as [ | p a IH ]; intros s; simpl.
  - reflexivity.
  - unfold bind in *. destruct (f p s) as [s' [ [] | e ]].
    + rewrite IH. reflexivity.
    + reflexivity.
Qed.

(** ** The walk, entry by entry *)

Lemma crawl_entries_File dir f file rest s :
  crawl_entries dir f ((file, File) :: rest) s
  = (f (dir ++ "/" ++ file) ;;; crawl_entries dir f rest) s.
Proof. reflexivity. Qed.

Lemma crawl_entries_Directory dir f file files rest s :
  crawl_entries dir f ((file, Directory files) :: rest) s
  = (crawl_entries (dir ++ "/" ++ file) f files ;;;
     crawl_entries dir f rest) s.
Proof.
  cbn [crawl_entries]. rewrite crawlDirectory_at_Directory. reflexivity.
Qed.

Lemma crawl_entries_Special dir f file rest s :
  crawl_entries dir f ((file, Special) :: rest) s
  = crawl_entries dir f rest s.
Proof. reflexivity. Qed.

Lemma crawl_entries_Dangling dir f file rest s :
  crawl_entries dir f ((file, Dangling) :: rest) s
  = (s, Throw (ENOENT (dir ++ "/" ++ file))).
Proof. reflexivity. Qed.

Lemma crawl_entries_Locked dir f file rest s :
  crawl_entries dir f ((file, Locked) :: rest) s
  = (s, Throw (EACCES (dir ++ "/" ++ file))).
Proof. reflexivity. Qed.

Lemma files_of_entries_nonempty files :
  Forall (fun segs => segs <> []) (files_of_entries files).
Proof.
  induction files as [ | [file child] rest IH ]; simpl; [ constructor | ].
  apply Forall_app; split; [ | exact IH ].
  destruct child; try (apply Forall_forall; intros segs Hin;
    apply in_map_iff in Hin; destruct Hin as (x & <- & _); discriminate).
  constructor; [ discriminate | constructor ].
Qed.

(** Over a tree it gets through, the walk calls [f] once per regular
    file, on the file's absolute path, and nothing else. *)
Lemma crawl_entries_walkable files :
  forall dir f s,
    walkable_entries files = true ->
    crawl_entries dir f files s
    = for_each f (map (under dir) (files_of_entries files)) s.
Proof.
  apply (listing_ind
    (fun n => forall files, n = Directory files ->
       forall dir f s, walkable_entries files = true ->
         crawl_entries dir f files s
         = for_each f (map (under dir) (files_of_entries files)) s)
    (fun files => forall dir f s, walkable_entries files = true ->
         crawl_entries dir f files s
         = for_each f (map (under dir) (files_of_entries files)) s));
    try discriminate; clear files.
  - intros files IH files' [= <-]. exact IH.
  - reflexivity.
  - intros file child rest IHchild IHrest dir f s Hw.
    simpl in Hw. apply andb_prop in Hw as [Hchild Hrest].
    cbn [files_of_entries]. rewrite map_app, for_each_app.
    destruct child as [ | files' | | | ]; try discriminate.
    + rewrite crawl_entries_File.
      apply bind_ext; [ | intros; now apply IHrest ].
      cbn [map for_each]. rewrite bind_ret_r. reflexivity.
    + rewrite crawl_entries_Directory.
      rewrite walkable_Directory in Hchild.
      apply bind_ext; [ | intros; now apply IHrest ].
      rewrite (IHchild files' eq_refl _ f s Hchild).
      rewrite files_below_Directory, map_map.
      rewrite (map_ext_in (fun segs => under dir (file :: segs))
                          (under (dir ++ "/" ++ file))); [ reflexivity | ].
      intros segs Hin. apply under_cons.
      pose proof (files_of_entries_nonempty files') as Hall.
      rewrite Forall_forall in Hall. now apply Hall.
    + rewrite crawl_entries_Special. cbn [files_below map for_each].
      unfold bind at 1. cbn [ret]. now apply IHrest.
Qed.

(** ** The program, statement by statement *)

Lemma upload_registers w paths s :
  for_each (upload w borisBucket) paths s
  = ((s ++ map (object_of w) paths)%list, Ok tt).
Proof.
  revert s. induction paths as [ | p paths IH ]; intros s.
  - simpl. now rewrite app_nil_r.
  - cbn [for_each map]. unfold bind at 1.
    change (upload w borisBucket p s)
      with ((s ++ [object_of w p])%list, @Ok unit tt).
    cbv iota beta. rewrite IH, <- app_assoc. reflexivity.
Qed.

(** The run is: the bucket, then the walk, then (if the walk returns) the
    rest of the skeleton. *)
Lemma run_steps w :
  run w
  = match crawlDirectory (wwwDir w) (www w) (upload w borisBucket)
            [bucket_decl] with
    | (s, Ok _) => ((s ++ infrastructure)%list, Ok tt)
    | (s, Throw e) => (s, Throw e)
    end.
Proof.
  unfold run, program. unfold bind at 1.
  change (new S3Bucket "borisBucket" _ no_opts [])
    with ([bucket_decl], Ok borisBucket).
  cbv iota beta. unfold bind at 1.
  destruct (crawlDirectory _ _ _ _) as [s [ [] | e ]]; [ | reflexivity ].
  unfold bind, new, ret, infrastructure; cbn [o_parent o_provider no_opts].
  repeat rewrite <- app_assoc. reflexivity.
Qed.

(** A run over a root the walk gets through. *)
Lemma run_walkable w files :
  www w = Some (Directory files) ->
  walkable_entries files = true ->
  run w
  = ((bucket_decl
      :: map (object_of w) (map (under (wwwDir w)) (files_of_entries files))
      ++ infrastructure)%list,
     Ok tt).
Proof.
  intros Hwww Hwalk. rewrite run_steps, Hwww.
  unfold crawlDirectory. rewrite crawlDirectory_at_Directory.
  rewrite (crawl_entries_walkable _ _ _ _ Hwalk), upload_registers.
  reflexivity.
Qed.

(** What the walk registers, whether it returns or throws: object
    declarations of paths, after what was there. *)
Lemma crawl_entries_registers w files :
  forall dir s, exists paths,
    fst (crawl_entries dir (upload w borisBucket) files s)
    = (s ++ map (object_of w) paths)%list.
Proof.
  apply (listing_ind
    (fun n => forall files, n = Directory files ->
       forall dir s, exists paths,
         fst (crawl_entries dir (upload w borisBucket) files s)
         = (s ++ map (object_of w) paths)%list)
    (fun files => forall dir s, exists paths,
         fst (crawl_entries dir (upload w borisBucket) files s)
         = (s ++ map (object_of w) paths)%list));
    try discriminate; clear files.
  - intros files IH files' [= <-]. exact IH.
  - intros dir s. exists []. simpl. now rewrite app_nil_r.
  - intros file child rest IHchild IHrest dir s.
    destruct child as [ | files' | | | ].
    + rewrite crawl_entries_File. unfold bind.
      change (upload w borisBucket (dir ++ "/" ++ file) s)
        with ((s ++ [object_of w (dir ++ "/" ++ file)])%list, @Ok unit tt).
      cbv iota beta.
      destruct (IHrest dir (s ++ [object_of w (dir ++ "/" ++ file)])%list)
        as [paths Hpaths].
      exists ((dir ++ "/" ++ file) :: paths).
      rewrite Hpaths, <- app_assoc. reflexivity.
    + rewrite crawl_entries_Directory. unfold bind.
      destruct (IHchild files' eq_refl (dir ++ "/" ++ file) s)
        as [paths1 Hpaths1].
      destruct (crawl_entries (dir ++ "/" ++ file) _ files' s)
        as [s1 [ [] | e ]]; simpl in Hpaths1; subst s1.
      * destruct (IHrest dir (s ++ map (object_of w) paths1)%list)
          as [paths2 Hpaths2].
        exists (paths1 ++ paths2)%list.
        rewrite Hpaths2, map_app, app_assoc. reflexivity.
      * exists paths1. reflexivity.
    + exists []. simpl. now rewrite app_nil_r.
    + rewrite crawl_entries_Special. apply IHrest.
    + exists []. simpl. now rewrite app_nil_r.
Qed.

Lemma crawlDirectory_registers w dir n s :
  exists paths,
    fst (crawlDirectory dir n (upload w borisBucket) s)
    = (s ++ map (object_of w) paths)%list.
Proof.
  destruct n as [ [ | files | | | ] | ];
    try (exists []; simpl; now rewrite app_nil_r).
  unfold crawlDirectory. rewrite crawlDirectory_at_Directory.
  apply crawl_entries_registers.
Qed.

(** Every run, returning or not: the bucket, then object declarations,
    then all of the rest of the skeleton or none of it. *)
Lemma run_any w :
  exists paths,
    (declarations w = (bucket_decl :: map (object_of w) paths)%list /\
     exists e, outcome w = Throw e)
    \/ (declarations w
        = (bucket_decl :: map (object_of w) paths ++ infrastructure)%list /\
        outcome w = Ok tt).
Proof.
  unfold declarations, outcome. rewrite run_steps.
  destruct (crawlDirectory_registers w (wwwDir w) (www w) [bucket_decl])
    as [paths Hpaths].
  exists paths.
  destruct (crawlDirectory _ _ _ _) as [s [ [] | e ]];
    simpl in Hpaths; subst s; simpl.
  - right. split; reflexivity.
  - left. split; [ reflexivity | now exists e ].
Qed.

(** ** Object declarations and the others *)

Lemma objects_of_map w paths : objects (map (object_of w) paths) = map (object_of w) paths.
Proof.
  unfold objects. induction paths as [ | p paths IH ]; simpl; [ | rewrite IH ];
    reflexivity.
Qed.

Lemma skeleton_of_map w paths : skeleton (map (object_of w) paths) = [].
Proof.
  unfold skeleton. induction paths as [ | p paths IH ]; simpl; [ | rewrite IH ];
    reflexivity.
Qed.

Lemma objects_app a b : objects (a ++ b) = (objects a ++ objects b)%list.
Proof. apply filter_app. Qed.

Lemma skeleton_app a b : skeleton (a ++ b) = (skeleton a ++ skeleton b)%list.
Proof. apply filter_app. Qed.

Lemma objects_of_run w paths :
  objects (bucket_decl :: map (object_of w) paths ++ infrastructure)
  = map (object_of w) paths.
Proof.
  change (bucket_decl :: map (object_of w) paths ++ infrastructure)%list
    with ([bucket_decl] ++ map (object_of w) paths ++ infrastructure)%list.
  rewrite !objects_app, objects_of_map.
  change (objects [bucket_decl]) with (@nil decl).
  change (objects infrastructure) with (@nil decl).
  now rewrite app_nil_r.
Qed.

Lemma skeleton_of_run w paths :
  skeleton (bucket_decl :: map (object_of w) paths ++ infrastructure)
  = bucket_decl :: infrastructure.
Proof.
  change (bucket_decl :: map (object_of w) paths ++ infrastructure)%list
    with ([bucket_decl] ++ map (object_of w) paths ++ infrastructure)%list.
  rewrite !skeleton_app, skeleton_of_map.
  reflexivity.
Qed.

(** ** Files and their relative paths *)

Lemma count_files_of_entries files :
  List.length (files_of_entries files) = count_files_entries files.
Proof.
  apply (listing_ind
    (fun n => n <> File -> List.length (files_below n) = count_files n)
    (fun files => List.length (files_of_entries files) = count_files_entries files));
    try reflexivity; clear files.
  - intros H. now elim H.
  - intros files IH _.
    now rewrite files_below_Directory, count_files_Directory.
  - intros file child rest IHchild IHrest.
    cbn [files_of_entries count_files_entries].
    rewrite length_app, IHrest.
    destruct child; try (rewrite length_map, IHchild by discriminate);
      reflexivity.
Qed.

Lemma files_of_entries_head files segs :
  In segs (files_of_entries files) ->
  exists file rest, segs = file :: rest /\ In file (map fst files).
Proof.
  induction files as [ | [file child] files IH ]; simpl; [ tauto | ].
  intros Hin. apply in_app_or in Hin as [Hin | Hin].
  - assert (exists rest, segs = file :: rest) as [rest ->].
    { destruct child; simpl in Hin; try contradiction;
        try (apply in_map_iff in Hin as (rest & <- & _); now exists rest).
      destruct Hin as [<- | []]. now exists []. }
    exists file, rest. auto.
  - destruct (IH Hin) as (file' & rest & -> & Hin').
    exists file', rest. auto.
Qed.

Lemma mem_string_In x l : mem_string x l = true <-> In x l.
Proof.
  induction l as [ | y l IH ]; simpl.
  - split; [ discriminate | tauto ].
  - rewrite orb_true_iff, IH, String.eqb_eq. split; intros [H | H]; auto.
Qed.

(** In a well-named tree no two regular files have the same relative
    path, and every segment of one is an entry name. *)
Lemma files_of_entries_well_named files :
  well_named_entries files = true ->
  NoDup (files_of_entries files)
  /\ Forall (Forall (fun seg => entry_name seg = true))
            (files_of_entries files).
Proof.
  apply (listing_ind
    (fun n => well_named n = true ->
       NoDup (files_below n)
       /\ Forall (Forall (fun seg => entry_name seg = true)) (files_below n))
    (fun files => well_named_entries files = true ->
       NoDup (files_of_entries files)
       /\ Forall (Forall (fun seg => entry_name seg = true))
                 (files_of_entries files)));
    try (intros _; split; constructor); clear files.
  - intros files IH Hwn.
    rewrite well_named_Directory in Hwn. rewrite files_below_Directory. auto.
  - intros file child rest IHchild IHrest Hwn.
    cbn [well_named_entries] in Hwn.
    apply andb_prop in Hwn as [Hwn Hrest].
    apply andb_prop in Hwn as [Hwn Hchild].
    apply andb_prop in Hwn as [Hname Hfresh].
    destruct (IHrest Hrest) as [NDrest Frest].
    destruct (IHchild Hchild) as [NDchild Fchild].
    cbn [files_of_entries].
    assert (Hhere :
      NoDup (match child with
             | File => [[file]]
             | _ => map (cons file) (files_below child)
             end)
      /\ Forall (Forall (fun seg => entry_name seg = true))
                (match child with
                 | File => [[file]]
                 | _ => map (cons file) (files_below child)
                 end)).
    { assert (Hmap : NoDup (map (cons file) (files_below child))
        /\ Forall (Forall (fun seg => entry_name seg = true))
                  (map (cons file) (files_below child))).
      { split.
        - apply NoDup_map_NoDup_ForallPairs; [ | exact NDchild ].
          intros a b _ _ [= ->]. reflexivity.
        - apply Forall_forall. intros segs Hin.
          apply in_map_iff in Hin as (tl & <- & Hin).
          constructor; [ exact Hname | ].
          rewrite Forall_forall in Fchild. now apply Fchild. }
      destruct child; try exact Hmap.
      split.
      - constructor; [ simpl; tauto | constructor ].
      - repeat constructor. exact Hname. }
    destruct Hhere as [NDhere Fhere].
    split; [ | apply Forall_app; now split ].
    apply NoDup_app; [ exact NDhere | exact NDrest | ].
    intros segs Hin1 Hin2.
    apply files_of_entries_head in Hin2 as (file' & tl & -> & Hin2).
    assert (file' = file) as ->.
    { destruct child; simpl in Hin1; try contradiction;
        try (apply in_map_iff in Hin1 as (tl' & [= <- _] & _); reflexivity).
      destruct Hin1 as [[= <- _] | []]. reflexivity. }
    apply mem_string_In in Hin2. rewrite Hin2 in Hfresh. discriminate.
Qed.

(** ** Joined paths tell the segments apart *)

Definition closes_segment (r : string) : Prop :=
  r = "" \/ starts_with_slash r = true.

Lemma segment_split a b ra rb :
  slash_free a = true -> slash_free b = true ->
  closes_segment ra -> closes_segment rb ->
  a ++ ra = b ++ rb -> a = b /\ ra = rb.
Proof.
  revert b. induction a as [ | x a IH ]; intros [ | y b ] Ha Hb Hra Hrb Heq;
    simpl in *.
  - auto.
  - subst ra. destruct Hra as [[=] | Hra]. simpl in Hra.
    apply andb_prop in Hb as [Hy _]. rewrite Hra in Hy. discriminate.
  - subst rb. destruct Hrb as [[=] | Hrb]. simpl in Hrb.
    apply andb_prop in Ha as [Hx _]. rewrite Hrb in Hx. discriminate.
  - injection Heq as -> Heq.
    apply andb_prop in Ha as [_ Ha]. apply andb_prop in Hb as [_ Hb].
    destruct (IH b Ha Hb Hra Hrb Heq) as [-> ->]. auto.
Qed.

(** What follows the first segment in a joined path. *)
Definition after_first (segs : list string) : string :=
  match segs with
  | [] => ""
  | _ :: _ => "/" ++ join_segments segs
  end.

Lemma join_segments_cons seg segs :
  join_segments (seg :: segs) = seg ++ after_first segs.
Proof.
  destruct segs; simpl.
  - clear. induction seg as [ | c seg IH ]; simpl; [ | rewrite <- IH ];
      reflexivity.
  - reflexivity.
Qed.

Lemma after_first_closes segs : closes_segment (after_first segs).
Proof. destruct segs; [ now left | now right ]. Qed.

Lemma entry_name_slash_free seg : entry_name seg = true -> slash_free seg = true.
Proof. unfold entry_name. intros H. now apply andb_prop in H. Qed.

Lemma join_segments_inj a b :
  Forall (fun seg => entry_name seg = true) a ->
  Forall (fun seg => entry_name seg = true) b ->
  a <> [] -> b <> [] ->
  join_segments a = join_segments b -> a = b.
Proof.
  intros Ha. revert b.
  induction Ha as [ | x a Hx Ha IH ]; intros b Hb Hane Hbne Heq;
    [ now elim Hane | ].
  destruct Hb as [ | y b Hy Hb ]; [ now elim Hbne | ].
  rewrite !join_segments_cons in Heq.
  apply segment_split in Heq as [-> Heq];
    auto using entry_name_slash_free, after_first_closes.
  f_equal.
  destruct a as [ | x' a ], b as [ | y' b ]; try discriminate; auto.
  apply IH; try discriminate; auto.
  now injection Heq.
Qed.

Lemma join_segments_no_leading_slash segs :
  Forall (fun seg => entry_name seg = true) segs ->
  starts_with_slash (join_segments segs) = false.
Proof.
  intros Hall. destruct Hall as [ | seg tl Hseg _ ]; [ reflexivity | ].
  rewrite join_segments_cons.
  unfold entry_name in Hseg. apply andb_prop in Hseg as [Hne Hsf].
  destruct seg as [ | c seg ]; [ discriminate | ].
  simpl in *. apply andb_prop in Hsf as [Hc _].
  now apply negb_true_iff in Hc.
Qed.

Lemma Forall2_map_r {A B : Type} (R : A -> B -> Prop) (f : A -> B) l :
  (forall x, In x l -> R x (f x)) -> Forall2 R l (map f l).
Proof.
  induction l as [ | x l IH ]; intros H; simpl; constructor.
  - apply H. now left.
  - apply IH. intros y Hy. apply H. now right.
Qed.

(** A run over a root the walk gets through, the root being any such
    tree. *)
Lemma run_root w T :
  www w = Some T ->
  walkable_root (www w) = true ->
  declarations w
  = (bucket_decl
     :: map (object_of w) (map (under (wwwDir w)) (files_below T))
     ++ infrastructure)%list
  /\ outcome w = Ok tt.
Proof.
  intros Hwww Hroot. rewrite Hwww in Hroot.
  destruct T as [ | files | | | ]; try discriminate.
  unfold walkable_root in Hroot. rewrite walkable_Directory in Hroot.
  unfold declarations, outcome.
  rewrite (run_walkable w files Hwww Hroot), files_below_Directory.
  split; reflexivity.
Qed.

Lemma objects_root w T :
  www w = Some T ->
  walkable_root (www w) = true ->
  objects (declarations w)
  = map (object_of w) (map (under (wwwDir w)) (files_below T)).
Proof.
  intros Hwww Hroot. destruct (run_root w T Hwww Hroot) as [-> _].
  apply objects_of_run.
Qed.

Lemma keys_root w T :
  www w = Some T ->
  walkable_root (www w) = true ->
  map key_of (objects (declarations w))
  = map (fun segs => VStr (join_segments segs)) (files_below T).
Proof.
  intros Hwww Hroot. rewrite (objects_root w T Hwww Hroot), !map_map.
  apply map_ext. intros segs. apply key_of_object_of.
Qed.

Lemma files_below_well_named T :
  well_named T = true ->
  NoDup (files_below T)
  /\ Forall (Forall (fun seg => entry_name seg = true)) (files_below T).
Proof.
  destruct T as [ | files | | | ]; try (intros _; split; constructor).
  rewrite well_named_Directory, files_below_Directory.
  apply files_of_entries_well_named.
Qed.

Lemma files_below_nonempty T : Forall (fun segs => segs <> []) (files_below T).
Proof.
  destruct T as [ | files | | | ]; try constructor.
  rewrite files_below_Directory. apply files_of_entries_nonempty.
Qed.

Lemma count_files_below T : T <> File -> List.length (files_below T) = count_files T.
Proof.
  destruct T as [ | files | | | ]; try reflexivity.
  - intros H. now elim H.
  - intros _. rewrite files_below_Directory, count_files_Directory.
    apply count_files_of_entries.
Qed.

(* ================================================================== *)
(** * The claims *)

(** C1. For a tree under the asset root that the walk gets through, the
    run registers as many object declarations as the tree has regular
    files (directories and special files add none); and when the tree is
    named as a file system names its entries, no two of these
    declarations have the same key. *)
Theorem one_object_per_regular_file w T :
  www w = Some T ->
  walkable_root (www w) = true ->
  List.length (objects (declarations w)) = count_files T
  /\ (well_named T = true -> NoDup (map key_of (objects (declarations w)))).
Proof.
  intros Hwww Hroot. split.
  - rewrite (objects_root w T Hwww Hroot), !length_map.
    apply count_files_below. intros ->. rewrite Hwww in Hroot. discriminate.
  - intros Hwn. rewrite (keys_root w T Hwww Hroot).
    destruct (files_below_well_named T Hwn) as [ND Hnames].
    pose proof (files_below_nonempty T) as Hne.
    rewrite Forall_forall in Hnames, Hne.
    apply NoDup_map_NoDup_ForallPairs; [ | exact ND ].
    intros a b Ha Hb [= Heq].
    apply join_segments_inj; auto.
Qed.

Lemma one_object_per_regular_file_witness :
  List.length (objects (declarations Sample.odd_world)) = 3
  /\ NoDup (map key_of (objects (declarations Sample.odd_world))).
Proof.
  destruct (one_object_per_regular_file Sample.odd_world Sample.odd_site
              eq_refl eq_refl) as [Hcount Hkeys].
  split; [ exact Hcount | exact (Hkeys eq_refl) ].
Defined.

(** C2. For a tree under the asset root that the walk gets through, the
    keys of the object declarations are, file by file, the relative paths
    of the regular files: the segments joined by forward slashes; and in a
    tree named as a file system names its entries no key starts with a
    slash. *)
Theorem key_is_relative_path w T :
  www w = Some T ->
  walkable_root (www w) = true ->
  Forall2 (fun segs d =>
             source_of d = VFileAsset (under (wwwDir w) segs)
             /\ key_of d = VStr (join_segments segs)
             /\ (well_named T = true ->
                 starts_with_slash (key_string d) = false))
          (files_below T) (objects (declarations w)).
Proof.
  intros Hwww Hroot. rewrite (objects_root w T Hwww Hroot), map_map.
  apply Forall2_map_r. intros segs Hin.
  split; [ reflexivity | ]. split; [ apply key_of_object_of | ].
  intros Hwn. unfold key_string. rewrite key_of_object_of.
  apply join_segments_no_leading_slash.
  destruct (files_below_well_named T Hwn) as [_ Hnames].
  rewrite Forall_forall in Hnames. now apply Hnames.
Qed.

Lemma key_is_relative_path_witness :
  Forall2 (fun segs d =>
             source_of d = VFileAsset (under "/work/www" segs)
             /\ key_of d = VStr (join_segments segs)
             /\ (well_named Sample.odd_site = true ->
                 starts_with_slash (key_string d) = false))
          [ ["img"; "logo.png"]; ["data.xyz"]; ["index.html"] ]
          (objects (declarations Sample.odd_world)).
Proof.
  exact (key_is_relative_path Sample.odd_world Sample.odd_site
           eq_refl eq_refl).
Defined.

(** C3. For a tree under the asset root that the walk gets through, file
    by file: when [mime.getType] knows a media type for the file's path,
    the declaration's content type is that media type; when it answers
    [null], the content type is [undefined]. *)
Theorem content_type_from_lookup w T :
  www w = Some T ->
  walkable_root (www w) = true ->
  Forall2 (fun segs d =>
             source_of d = VFileAsset (under (wwwDir w) segs)
             /\ match mime_getType w (under (wwwDir w) segs) with
                | Some t => t <> "" -> contentType_of d = VStr t
                | None => contentType_of d = VUndefined
                end)
          (files_below T) (objects (declarations w)).
Proof.
  intros Hwww Hroot. rewrite (objects_root w T Hwww Hroot), map_map.
  apply Forall2_map_r. intros segs Hin.
  split; [ reflexivity | ].
  change (contentType_of (object_of w (under (wwwDir w) segs)))
    with (js_or (nullable (mime_getType w (under (wwwDir w) segs)))
                VUndefined).
  destruct (mime_getType w (under (wwwDir w) segs)) as [ t | ];
    [ | reflexivity ].
  intros Hne. unfold js_or, nullable, truthy.
  apply String.eqb_neq in Hne. now rewrite Hne.
Qed.

Lemma content_type_from_lookup_witness :
  Forall2 (fun segs d =>
             source_of d = VFileAsset (under "/work/www" segs)
             /\ match Sample.getType (under "/work/www" segs) with
                | Some t => t <> "" -> contentType_of d = VStr t
                | None => contentType_of d = VUndefined
                end)
          [ ["img"; "logo.png"]; ["data.xyz"]; ["index.html"] ]
          (objects (declarations Sample.odd_world)).
Proof.
  exact (content_type_from_lookup Sample.odd_world Sample.odd_site
           eq_refl eq_refl).
Defined.

(** The content types of [odd_world], as the run computes them. *)
Example content_types_of_odd_world :
  map (fun d => (key_of d, contentType_of d))
      (objects (declarations Sample.odd_world))
  = [ (VStr "img/logo.png", VStr "image/png");
      (VStr "data.xyz", VUndefined);
      (VStr "index.html", VStr "text/html") ].
Proof. reflexivity. Qed.

(** ** Facts about every run *)

Lemma declarations_forall (P : decl -> Prop) w :
  P bucket_decl ->
  (forall path, P (object_of w path)) ->
  Forall P infrastructure ->
  Forall P (declarations w).
Proof.
  intros Hb Ho Hi.
  assert (Hobjs : forall paths, Forall P (map (object_of w) paths)).
  { intros paths. apply Forall_forall. intros d Hin.
    apply in_map_iff in Hin as (p & <- & _). apply Ho. }
  destruct (run_any w) as [paths [[-> _] | [-> _]]].
  - constructor; [ exact Hb | apply Hobjs ].
  - constructor; [ exact Hb | ]. apply Forall_app. split; [ apply Hobjs | exact Hi ].
Qed.

Lemma run_returns w :
  outcome w = Ok tt ->
  exists paths,
    declarations w
    = (bucket_decl :: map (object_of w) paths ++ infrastructure)%list.
Proof.
  intros Hok. destruct (run_any w) as [paths [[_ [e He]] | [Hd _]]].
  - rewrite He in Hok. discriminate.
  - now exists paths.
Qed.

(** A tree the walk does not get through makes it throw, whatever the
    callback does. *)
Lemma crawl_entries_throws files :
  forall dir f s,
    walkable_entries files = false ->
    exists e, snd (crawl_entries dir f files s) = Throw e.
Proof.
  apply (listing_ind
    (fun n => forall files, n = Directory files ->
       forall dir f s, walkable_entries files = false ->
         exists e, snd (crawl_entries dir f files s) = Throw e)
    (fun files => forall dir f s, walkable_entries files = false ->
         exists e, snd (crawl_entries dir f files s) = Throw e));
    try discriminate; clear files.
  - intros files IH files' [= <-]. exact IH.
  - intros file child rest IHchild IHrest dir f s Hw.
    cbn [walkable_entries] in Hw. apply andb_false_iff in Hw.
    destruct child as [ | files' | | | ].
    + rewrite crawl_entries_File. unfold bind.
      destruct (f _ s) as [s' [ [] | e ]]; [ | now exists e ].
      destruct Hw as [Hw | Hw]; [ discriminate | now apply IHrest ].
    + rewrite crawl_entries_Directory. unfold bind.
      destruct (walkable_entries files') eqn:Hfiles'.
      * rewrite (crawl_entries_walkable files' _ f s Hfiles').
        destruct (for_each f _ s) as [s' [ [] | e ]]; [ | now exists e ].
        destruct Hw as [Hw | Hw]; [ | now apply IHrest ].
        rewrite walkable_Directory, Hfiles' in Hw. discriminate.
      * destruct (IHchild files' eq_refl (dir ++ "/" ++ file) f s Hfiles')
          as [e He].
        destruct (crawl_entries (dir ++ "/" ++ file) f files' s)
          as [s' [ [] | e' ]]; [ discriminate | now exists e' ].
    + rewrite crawl_entries_Locked. now eexists.
    + rewrite crawl_entries_Special.
      destruct Hw as [Hw | Hw]; [ discriminate | now apply IHrest ].
    + rewrite crawl_entries_Dangling. now eexists.
Qed.

(** The module body runs to its end exactly when the asset root is a
    directory the walk gets through. *)
Lemma outcome_Ok_iff w : outcome w = Ok tt <-> walkable_root (www w) = true.
Proof.
  split.
  - intros Hok. unfold outcome in Hok. rewrite run_steps in Hok.
    destruct (www w) as [ [ | files | | | ] | ] eqn:Hwww;
      try (simpl in Hok; discriminate).
    unfold walkable_root. rewrite walkable_Directory.
    destruct (walkable_entries files) eqn:Hwalk; [ reflexivity | ].
    unfold crawlDirectory in Hok. rewrite crawlDirectory_at_Directory in Hok.
    destruct (crawl_entries_throws files (wwwDir w) (upload w borisBucket)
                [bucket_decl] Hwalk) as [e He].
    destruct (crawl_entries _ _ _ _) as [s' [ [] | e' ]]; discriminate.
  - intros Hroot. destruct (www w) as [ T | ] eqn:Hwww; [ | discriminate ].
    rewrite <- Hwww in Hroot. now destruct (run_root w T Hwww Hroot).
Qed.

(** C4, as stated, fails: with no [www] directory the run throws, but the
    storage bucket of line 23 is registered before the walk of line 33
    starts. *)
Lemma missing_root_registers_the_bucket :
  ~ fails_with_nothing_registered Sample.missing_world.
Proof. intros [_ H]. discriminate H. Qed.

(** C4, amended. When the asset root does not exist the run stops with
    the ENOENT error of [fs.readdirSync] on the root; the storage bucket,
    declared before the walk, is the one declaration registered by then:
    no object and none of the rest of the skeleton. *)
Theorem missing_root_fails_after_bucket w :
  www w = None ->
  outcome w = Throw (ENOENT (wwwDir w))
  /\ declarations w = [bucket_decl]
  /\ objects (declarations w) = [].
Proof.
  intros Hwww. unfold outcome, declarations.
  rewrite run_steps, Hwww. repeat split.
Qed.

Lemma missing_root_fails_after_bucket_witness :
  outcome Sample.missing_world = Throw (ENOENT "/work/www")
  /\ declarations Sample.missing_world = [bucket_decl]
  /\ objects (declarations Sample.missing_world) = [].
Proof.
  exact (missing_root_fails_after_bucket Sample.missing_world eq_refl).
Defined.

(** C10. An entry that is neither a directory nor a regular file leaves
    no trace in the walk: with the entry or without it, whatever the
    callback, the walk makes the same calls, in the same state, and
    returns or throws the same. *)
Theorem special_entry_is_skipped dir f before file after s :
  crawlDirectory dir (Some (Directory (before ++ (file, Special) :: after)))
                 f s
  = crawlDirectory dir (Some (Directory (before ++ after))) f s.
Proof.
  unfold crawlDirectory. rewrite !crawlDirectory_at_Directory.
  revert s. induction before as [ | [file' child] before IH ]; intros s.
  - apply crawl_entries_Special.
  - cbn [app crawl_entries].
    apply bind_ext; [ reflexivity | intros stat s1 ].
    apply bind_ext; [ reflexivity | intros _ s2 ].
    apply bind_ext; [ reflexivity | intros _ s3 ].
    apply IH.
Qed.

(** C6. In every run, whether it returns or throws: a declaration names
    the provider [east] exactly when it is the certificate or the
    certificate validation, every other declaration names no provider;
    [east] is declared for the region us-east-1; and a run that returns
    has declared all three. *)
Theorem east_provider_for_certificate_only w :
  (forall d, In d (declarations w) ->
     d_provider d
     = if needs_east (d_type d) then Some eastRegion else None)
  /\ (forall d, In d (declarations w) -> handle d = eastRegion ->
        field "region" (d_args d) = VStr "us-east-1")
  /\ (outcome w = Ok tt ->
      exists e c v,
        In e (declarations w) /\ handle e = eastRegion /\
        In c (declarations w) /\ handle c = certificate /\
        In v (declarations w) /\ handle v = certValidation).
Proof.
  split; [ | split ].
  - apply Forall_forall. apply declarations_forall.
    + reflexivity.
    + reflexivity.
    + repeat constructor.
  - apply (proj1 (Forall_forall
               (fun d => handle d = eastRegion ->
                         field "region" (d_args d) = VStr "us-east-1") _)).
    apply declarations_forall.
    + discriminate.
    + discriminate.
    + repeat constructor; try discriminate.
  - intros Hok. destruct (run_returns w Hok) as [paths ->].
    exists (nth 2 infrastructure bucket_decl),
           (nth 3 infrastructure bucket_decl),
           (nth 5 infrastructure bucket_decl).
    assert (Hin : forall d, In d infrastructure ->
              In d (bucket_decl :: map (object_of w) paths ++ infrastructure)).
    { intros d Hd. right. apply in_or_app. now right. }
    repeat split; try apply Hin; simpl; tauto.
Qed.

Lemma east_provider_for_certificate_only_witness :
  In (nth 3 infrastructure bucket_decl) (declarations Sample.site_world)
  /\ d_provider (nth 3 infrastructure bucket_decl) = Some eastRegion.
Proof.
  assert (Hin : In (nth 3 infrastructure bucket_decl)
                   (declarations Sample.site_world)).
  { simpl. tauto. }
  split; [ exact Hin | ].
  exact (proj1 (east_provider_for_certificate_only Sample.site_world)
           _ Hin).
Defined.

(** C7. A run that returns has declared exactly one record whose name,
    type and value are those of the certificate's first domain-validation
    option, and exactly one record whose alias target is the
    distribution's domain name. *)
Theorem one_validation_record_one_alias_record w :
  outcome w = Ok tt ->
  exactly_one is_validation_record (declarations w)
  /\ exactly_one (is_alias_record_to (VOut cdn [ Field "domainName" ]))
                 (declarations w).
Proof.
  intros Hok. destruct (run_returns w Hok) as [paths ->].
  assert (Hobjs : forall P : decl -> Prop,
            (forall p, ~ P (object_of w p)) ->
            Forall (fun d => ~ P d) (map (object_of w) paths)).
  { intros P HP. apply Forall_forall. intros d Hin.
    apply in_map_iff in Hin as (p & <- & _). apply HP. }
  split.
  - exists (bucket_decl :: map (object_of w) paths ++ firstn 4 infrastructure)%list,
           (nth 4 infrastructure bucket_decl),
           (skipn 5 infrastructure).
    split; [ | split ].
    + simpl. f_equal. now rewrite <- app_assoc.
    + repeat split.
    + rewrite <- app_comm_cons, <- app_assoc.
      constructor; [ intros [H _]; discriminate H | ].
      apply Forall_app. split.
      * apply Hobjs. intros p [H _]. discriminate H.
      * repeat constructor; intros (H1 & H2 & _); discriminate.
  - exists (bucket_decl :: map (object_of w) paths ++ firstn 7 infrastructure)%list,
           (nth 7 infrastructure bucket_decl),
           (skipn 8 infrastructure).
    split; [ | split ].
    + simpl. f_equal. now rewrite <- app_assoc.
    + repeat split.
    + rewrite <- app_comm_cons, <- app_assoc.
      constructor; [ intros [H _]; discriminate H | ].
      apply Forall_app. split.
      * apply Hobjs. intros p [H _]. discriminate H.
      * repeat constructor; intros (H1 & H2); discriminate.
Qed.

Lemma one_validation_record_one_alias_record_witness :
  exactly_one is_validation_record (declarations Sample.site_world)
  /\ exactly_one (is_alias_record_to (VOut cdn [ Field "domainName" ]))
                 (declarations Sample.site_world).
Proof.
  exact (one_validation_record_one_alias_record Sample.site_world eq_refl).
Defined.

(** C9. In every run the logging prefix of the distribution is the bucket
    object turned into a string and a slash, which is the text
    "[object Object]/": a string, so no deferred output of the bucket
    (its domain name), and neither the bucket's name nor its logical name
    followed by a slash.  A run that returns has declared the
    distribution. *)
Theorem logging_prefix_is_object_string w :
  (forall d, In d (declarations w) -> d_type d = CloudfrontDistribution ->
     logging_prefix d = VStr (resource_toString borisBucket ++ "/")
     /\ logging_prefix d = VStr "[object Object]/"
     /\ logging_prefix d <> VStr (website ++ "/")
     /\ logging_prefix d <> VStr (r_name borisBucket ++ "/")
     /\ forall r path, logging_prefix d <> VOut r path)
  /\ (outcome w = Ok tt ->
      exists d, In d (declarations w) /\ handle d = cdn).
Proof.
  split.
  - apply (proj1 (Forall_forall
               (fun d => d_type d = CloudfrontDistribution ->
                  logging_prefix d = VStr (resource_toString borisBucket ++ "/")
                  /\ logging_prefix d = VStr "[object Object]/"
                  /\ logging_prefix d <> VStr (website ++ "/")
                  /\ logging_prefix d <> VStr (r_name borisBucket ++ "/")
                  /\ forall r path, logging_prefix d <> VOut r path) _)).
    apply declarations_forall.
    + discriminate.
    + discriminate.
    + repeat constructor; try discriminate.
  - intros Hok. destruct (run_returns w Hok) as [paths ->].
    exists (nth 6 infrastructure bucket_decl). split; [ | reflexivity ].
    right. apply in_or_app. right. simpl. tauto.
Qed.

Lemma logging_prefix_is_object_string_witness :
  In (nth 6 infrastructure bucket_decl) (declarations Sample.site_world)
  /\ logging_prefix (nth 6 infrastructure bucket_decl)
     = VStr "[object Object]/".
Proof.
  assert (Hin : In (nth 6 infrastructure bucket_decl)
                   (declarations Sample.site_world)).
  { simpl. tauto. }
  split; [ exact Hin | ].
  exact (proj1 (proj2 (proj1 (logging_prefix_is_object_string
                                Sample.site_world) _ Hin eq_refl))).
Defined.

(** ** Listing order *)

Lemma same_tree_refl : forall n, same_tree n n.
Proof.
  apply (node_listing_ind (fun n => same_tree n n)
                          (fun files => same_entries files files));
    try constructor; auto.
Qed.

Lemma same_entries_refl : forall files, same_entries files files.
Proof.
  apply (listing_ind (fun n => same_tree n n)
                     (fun files => same_entries files files));
    try constructor; auto.
Qed.

Lemma Permutation_same_entries files files' :
  Permutation files files' -> same_entries files files'.
Proof.
  induction 1 as [ | [file child] l l' _ IH | e1 e2 l | l1 l2 l3 _ IH1 _ IH2 ].
  - constructor.
  - constructor; [ apply same_tree_refl | exact IH ].
  - constructor. apply same_entries_refl.
  - exact (same_trans _ _ _ IH1 IH2).
Qed.

(** Listing order changes neither whether the walk gets through nor which
    files it finds. *)
Lemma same_tree_entries_facts :
  (forall a b, same_tree a b ->
     walkable a = walkable b
     /\ Permutation (files_below a) (files_below b)
     /\ (a = File <-> b = File))
  /\ (forall files files', same_entries files files' ->
        walkable_entries files = walkable_entries files'
        /\ Permutation (files_of_entries files) (files_of_entries files')).
Proof.
  apply same_tree_entries_ind.
  - repeat split; auto.
  - repeat split; auto.
  - repeat split; auto.
  - repeat split; auto.
  - intros files files' _ [Hw Hp].
    rewrite !walkable_Directory, !files_below_Directory.
    repeat split; auto; discriminate.
  - split; constructor.
  - intros file child child' rest rest' _ (Hw & Hp & Hf) _ [Hwr Hpr].
    cbn [walkable_entries files_of_entries]. rewrite Hw, Hwr.
    split; [ reflexivity | ].
    apply Permutation_app; [ | exact Hpr ].
    destruct child, child';
      try (apply Permutation_map; exact Hp);
      try reflexivity;
      try (destruct Hf as [Hf _]; specialize (Hf eq_refl); discriminate);
      try (destruct Hf as [_ Hf]; specialize (Hf eq_refl); discriminate).
  - intros [file1 child1] [file2 child2] rest rest' _ [Hwr Hpr].
    cbn [walkable_entries files_of_entries]. rewrite Hwr. split.
    + now rewrite !andb_assoc, (andb_comm (walkable child1)).
    + rewrite !app_assoc. apply Permutation_app; [ | exact Hpr ].
      apply Permutation_app_comm.
  - intros files1 files2 files3 _ [Hw1 Hp1] _ [Hw2 Hp2].
    split; [ congruence | exact (perm_trans Hp1 Hp2) ].
Qed.

(** ** The run depends on the world through the root path, the tree and
    the answers of the lookup *)

Lemma object_of_ext w1 w2 path :
  wwwDir w1 = wwwDir w2 ->
  (forall p, mime_getType w1 p = mime_getType w2 p) ->
  object_of w1 path = object_of w2 path.
Proof. intros Hdir Hmime. unfold object_of. now rewrite Hdir, Hmime. Qed.

Lemma crawl_entries_ext f g :
  (forall p s, f p s = g p s) ->
  forall files dir s, crawl_entries dir f files s = crawl_entries dir g files s.
Proof.
  intros Hfg files.
  apply (listing_ind
    (fun n => forall files, n = Directory files ->
       forall dir s, crawl_entries dir f files s = crawl_entries dir g files s)
    (fun files =>
       forall dir s, crawl_entries dir f files s = crawl_entries dir g files s));
    try discriminate; clear files.
  - intros files IH files' [= <-]. exact IH.
  - reflexivity.
  - intros file child rest IHchild IHrest dir s.
    destruct child as [ | files' | | | ]; try reflexivity.
    + rewrite !crawl_entries_File. apply bind_ext; auto.
    + rewrite !crawl_entries_Directory. apply bind_ext; auto.
    + rewrite !crawl_entries_Special. apply IHrest.
Qed.

Lemma crawlDirectory_ext f g :
  (forall p s, f p s = g p s) ->
  forall dir n s, crawlDirectory dir n f s = crawlDirectory dir n g s.
Proof.
  intros Hfg dir [ [ | files | | | ] | ] s; try reflexivity.
  unfold crawlDirectory. rewrite !crawlDirectory_at_Directory.
  now apply crawl_entries_ext.
Qed.

(** C5, as stated, fails: the scenario's run has the three object
    declarations, but nine skeleton declarations (two buckets, the zone,
    the provider, the certificate, two records, the certificate
    validation and the distribution), not seven. *)
Lemma scenario_has_nine_skeleton_declarations :
  ~ scenario_outcome Sample.site_world 7.
Proof. intros (_ & _ & H). vm_compute in H. discriminate H. Qed.

(** C5, amended. For a root holding [index.html], [404.html] and
    [css/site.css], listed in any order, and a lookup that knows the
    media types of the three, the run returns with exactly three object
    declarations, of keys [index.html], [404.html], [css/site.css] and
    content types [text/html], [text/html], [text/css] in that
    correspondence, each with the storage bucket as parent, and exactly
    nine skeleton declarations. *)
Theorem end_to_end_scenario w files :
  www w = Some (Directory files) ->
  Permutation files scenario_entries ->
  mime_getType w (wwwDir w ++ "/index.html") = Some "text/html" ->
  mime_getType w (wwwDir w ++ "/404.html") = Some "text/html" ->
  mime_getType w (wwwDir w ++ "/css/site.css") = Some "text/css" ->
  outcome w = Ok tt /\ scenario_outcome w 9.
Proof.
  intros Hwww Hperm Hindex H404 Hcss.
  destruct (proj2 same_tree_entries_facts _ _
              (Permutation_same_entries _ _ Hperm)) as [Hwalk Hfiles].
  change (walkable_entries scenario_entries) with true in Hwalk.
  change (files_of_entries scenario_entries)
    with [ ["index.html"]; ["404.html"]; ["css"; "site.css"] ] in Hfiles.
  unfold scenario_outcome, outcome, declarations.
  rewrite (run_walkable w files Hwww Hwalk). cbn [fst snd].
  rewrite objects_of_run, skeleton_of_run, !length_map.
  rewrite (Permutation_length Hfiles).
  repeat split.
  rewrite !map_map.
  etransitivity; [ apply Permutation_map; exact Hfiles | ].
  cbn [map]. unfold object_summary.
  rewrite !key_of_object_of.
  change (contentType_of (object_of w (under (wwwDir w) ["index.html"])))
    with (js_or (nullable (mime_getType w (wwwDir w ++ "/index.html")))
                VUndefined).
  change (contentType_of (object_of w (under (wwwDir w) ["404.html"])))
    with (js_or (nullable (mime_getType w (wwwDir w ++ "/404.html")))
                VUndefined).
  change (contentType_of
            (object_of w (under (wwwDir w) ["css"; "site.css"])))
    with (js_or (nullable (mime_getType w (wwwDir w ++ "/css/site.css")))
                VUndefined).
  rewrite Hindex, H404, Hcss. reflexivity.
Qed.

Lemma end_to_end_scenario_witness :
  outcome Sample.relisted_world = Ok tt
  /\ scenario_outcome Sample.relisted_world 9.
Proof.
  apply (end_to_end_scenario Sample.relisted_world
           [ ("css", Directory [ ("site.css", File) ]);
             ("index.html", File);
             ("404.html", File) ]); try reflexivity.
  unfold scenario_entries.
  apply Permutation_cons_app with (l1 := [ _; _ ]) (l2 := []).
  reflexivity.
Defined.

(** C8. Two runs in worlds that agree on the root path, on the answers of
    the lookup and on the tree: if the tree is listed in the same order,
    the runs are equal, declaration by declaration and in their outcome;
    if only the listing order differs, both return or both throw, and
    when they return they have the same skeleton and the same object
    declarations (same keys, content types and references), up to the
    order of the objects. *)
Theorem run_is_determined_by_the_tree w1 w2 :
  same_world w1 w2 ->
  (www w1 = www w2 -> run w1 = run w2)
  /\ (outcome w1 = Ok tt <-> outcome w2 = Ok tt)
  /\ (outcome w1 = Ok tt ->
      skeleton (declarations w1) = skeleton (declarations w2)
      /\ Permutation (objects (declarations w1)) (objects (declarations w2))
      /\ Permutation (declarations w1) (declarations w2)).
Proof.
  intros (Hdir & Hmime & Htree).
  assert (Hobj : forall p, object_of w1 p = object_of w2 p)
    by (intros p; now apply object_of_ext).
  assert (Hroot : walkable_root (www w1) = walkable_root (www w2)).
  { destruct (www w1) as [ t1 | ], (www w2) as [ t2 | ];
      try contradiction; [ | reflexivity ].
    destruct (proj1 same_tree_entries_facts _ _ Htree) as (Hw & _ & _).
    destruct Htree; try reflexivity.
    unfold walkable_root. exact Hw. }
  split; [ | split ].
  - intros Hwww. rewrite !run_steps, <- Hwww, <- Hdir.
    rewrite (crawlDirectory_ext (upload w1 borisBucket)
                                (upload w2 borisBucket)); [ reflexivity | ].
    intros p s. unfold upload, new, bind, ret; cbn [o_parent o_provider].
    change (mkDecl S3BucketObject _ _ (Some borisBucket) None)
      with (object_of w1 p) at 1.
    now rewrite Hobj.
  - now rewrite !outcome_Ok_iff, Hroot.
  - intros Hok. apply outcome_Ok_iff in Hok as Hroot1.
    assert (Hroot2 : walkable_root (www w2) = true) by congruence.
    destruct (www w1) as [ t1 | ] eqn:Hwww1; [ | discriminate ].
    destruct (www w2) as [ t2 | ] eqn:Hwww2; [ | discriminate ].
    rewrite <- Hwww1 in Hroot1. rewrite <- Hwww2 in Hroot2.
    destruct (run_root w1 t1 Hwww1 Hroot1) as [-> _].
    destruct (run_root w2 t2 Hwww2 Hroot2) as [-> _].
    destruct (proj1 same_tree_entries_facts _ _ Htree) as (_ & Hfiles & _).
    assert (Hperm : Permutation
              (map (object_of w1) (map (under (wwwDir w1)) (files_below t1)))
              (map (object_of w2) (map (under (wwwDir w2)) (files_below t2)))).
    { rewrite (map_ext _ _ Hobj), <- Hdir.
      now apply Permutation_map, Permutation_map. }
    rewrite !skeleton_of_run, !objects_of_run.
    split; [ reflexivity | ]. split; [ exact Hperm | ].
    constructor. now apply Permutation_app_tail.
Qed.

Lemma run_is_determined_by_the_tree_witness :
  Permutation (objects (declarations Sample.site_world))
              (objects (declarations Sample.relisted_world))
  /\ skeleton (declarations Sample.site_world)
     = skeleton (declarations Sample.relisted_world).
Proof.
  assert (Hsame : same_world Sample.site_world Sample.relisted_world).
  { split; [ reflexivity | ]. split; [ reflexivity | ].
    simpl. constructor. apply Permutation_same_entries.
    apply Permutation_sym.
    apply Permutation_cons_app with (l1 := [ _; _ ]) (l2 := []).
    reflexivity. }
  destruct (run_is_determined_by_the_tree _ _ Hsame) as (_ & _ & H).
  destruct (H eq_refl) as (Hskel & Hobjs & _).
  split; [ exact Hobjs | exact Hskel ].
Defined.

(* ================================================================== *)
(** * Further properties of the walk and of the run *)

(** ** Prefixes *)

Lemma prefix_split a p : String.prefix a p = true -> exists r, p = a ++ r.
Proof.
  revert p. induction a as [ | x a IH ]; intros p H.
  - now exists p.
  - destruct p as [ | y p ]; simpl in H; [ discriminate | ].
    destruct (ascii_dec x y) as [ <- | ]; [ | discriminate ].
    destruct (IH p H) as [r ->]. now exists r.
Qed.

Lemma prefix_weaken a b p :
  String.prefix (a ++ b) p = true -> String.prefix a p = true.
Proof.
  intros H. apply prefix_split in H as [r ->].
  rewrite append_assoc. apply prefix_append.
Qed.

Lemma prefix_entry dir file : String.prefix (dir ++ "/") (dir ++ "/" ++ file) = true.
Proof. rewrite <- append_assoc. apply prefix_append. Qed.

Lemma prefix_below dir file p :
  String.prefix ((dir ++ "/" ++ file) ++ "/") p = true ->
  String.prefix (dir ++ "/") p = true.
Proof.
  intros H. apply (prefix_weaken _ (file ++ "/")).
  now rewrite <- !append_assoc in *.
Qed.

(** ** The walk and its callback *)

Lemma crawl_entries_app dir f a b s :
  crawl_entries dir f (a ++ b) s
  = (crawl_entries dir f a ;;; crawl_entries dir f b) s.
Proof.
  revert s. induction a as [ | [file child] a IH ]; intros s.
  - reflexivity.
  - cbn [app crawl_entries]. rewrite bind_assoc.
    apply bind_ext; [ reflexivity | intros stat s1 ].
    rewrite bind_assoc. apply bind_ext; [ reflexivity | intros _ s2 ].
    rewrite bind_assoc. apply bind_ext; [ reflexivity | intros _ s3 ].
    apply IH.
Qed.

Lemma crawl_entries_invariant (I : list decl -> Prop) f files :
  forall dir s,
    (forall p s', String.prefix (dir ++ "/") p = true ->
                  I s' -> I (fst (f p s'))) ->
    I s -> I (fst (crawl_entries dir f files s)).
Proof.
  apply (listing_ind
    (fun n => forall files, n = Directory files ->
       forall dir s,
         (forall p s', String.prefix (dir ++ "/") p = true ->
                       I s' -> I (fst (f p s'))) ->
         I s -> I (fst (crawl_entries dir f files s)))
    (fun files => forall dir s,
         (forall p s', String.prefix (dir ++ "/") p = true ->
                       I s' -> I (fst (f p s'))) ->
         I s -> I (fst (crawl_entries dir f files s))));
    try discriminate; clear files.
  - intros files IH files' [= <-]. exact IH.
  - intros dir s _ Hs. exact Hs.
  - intros file child rest IHchild IHrest dir s Hf Hs.
    destruct child as [ | files' | | | ].
    + rewrite crawl_entries_File. unfold bind.
      pose proof (Hf _ s (prefix_entry dir file) Hs) as Hs1.
      destruct (f (dir ++ "/" ++ file) s) as [s1 [ [] | e ]]; simpl in Hs1.
      * now apply IHrest.
      * exact Hs1.
    + rewrite crawl_entries_Directory. unfold bind.
      assert (Hs1 : I (fst (crawl_entries (dir ++ "/" ++ file) f files' s))).
      { apply (IHchild files' eq_refl); [ | exact Hs ].
        intros p s' Hp. apply Hf. now apply (prefix_below dir file). }
      destruct (crawl_entries (dir ++ "/" ++ file) f files' s)
        as [s1 [ [] | e ]]; simpl in Hs1.
      * now apply IHrest.
      * exact Hs1.
    + rewrite crawl_entries_Locked. exact Hs.
    + rewrite crawl_entries_Special. now apply IHrest.
    + rewrite crawl_entries_Dangling. exact Hs.
Qed.

Lemma for_each_returns f paths s :
  never_throws f -> snd (for_each f paths s) = Ok tt.
Proof.
  intros Hf. revert s. induction paths as [ | p paths IH ]; intros s.
  - reflexivity.
  - cbn [for_each]. unfold bind. destruct (Hf p s) as [s' ->]. apply IH.
Qed.

(** Whether the walk returns, and with which error it throws, is the
    same for any two callbacks that return. *)
Lemma crawl_entries_outcome f g files :
  never_throws f -> never_throws g ->
  forall dir s s',
    snd (crawl_entries dir f files s) = snd (crawl_entries dir g files s').
Proof.
  intros Hf Hg.
  apply (listing_ind
    (fun n => forall files, n = Directory files ->
       forall dir s s',
         snd (crawl_entries dir f files s) = snd (crawl_entries dir g files s'))
    (fun files => forall dir s s',
         snd (crawl_entries dir f files s) = snd (crawl_entries dir g files s')));
    try discriminate; clear files.
  - intros files IH files' [= <-]. exact IH.
  - reflexivity.
  - intros file child rest IHchild IHrest dir s s'.
    destruct child as [ | files' | | | ]; try reflexivity.
    + rewrite !crawl_entries_File. unfold bind.
      destruct (Hf (dir ++ "/" ++ file) s) as [s1 ->].
      destruct (Hg (dir ++ "/" ++ file) s') as [s1' ->].
      apply IHrest.
    + rewrite !crawl_entries_Directory. unfold bind.
      pose proof (IHchild files' eq_refl (dir ++ "/" ++ file) s s') as H.
      destruct (crawl_entries (dir ++ "/" ++ file) f files' s)
        as [s1 [ [] | e ]],
               (crawl_entries (dir ++ "/" ++ file) g files' s')
        as [s1' [ [] | e' ]]; simpl in H; try discriminate.
      * apply IHrest.
      * exact H.
    + rewrite !crawl_entries_Special. apply IHrest.
Qed.

(** An error of the walk is about a path below the directory walked. *)
Lemma crawl_entries_error_path f files :
  never_throws f ->
  forall dir s e,
    snd (crawl_entries dir f files s) = Throw e ->
    String.prefix (dir ++ "/") (error_path e) = true.
Proof.
  intros Hf.
  apply (listing_ind
    (fun n => forall files, n = Directory files ->
       forall dir s e,
         snd (crawl_entries dir f files s) = Throw e ->
         String.prefix (dir ++ "/") (error_path e) = true)
    (fun files => forall dir s e,
         snd (crawl_entries dir f files s) = Throw e ->
         String.prefix (dir ++ "/") (error_path e) = true));
    try discriminate; clear files.
  - intros files IH files' [= <-]. exact IH.
  - intros file child rest IHchild IHrest dir s e.
    destruct child as [ | files' | | | ].
    + rewrite crawl_entries_File. unfold bind.
      destruct (Hf (dir ++ "/" ++ file) s) as [s1 ->]. apply IHrest.
    + rewrite crawl_entries_Directory. unfold bind.
      pose proof (IHchild files' eq_refl (dir ++ "/" ++ file) s) as H.
      destruct (crawl_entries (dir ++ "/" ++ file) f files' s)
        as [s1 [ [] | e' ]]; simpl in H.
      * apply IHrest.
      * simpl. intros [= <-]. apply (prefix_below dir file). now apply H.
    + rewrite crawl_entries_Locked. simpl. intros [= <-].
      apply prefix_entry.
    + rewrite crawl_entries_Special. apply IHrest.
    + rewrite crawl_entries_Dangling. simpl. intros [= <-].
      apply prefix_entry.
Qed.

Lemma upload_never_throws w : never_throws (upload w borisBucket).
Proof. intros p s. eexists. reflexivity. Qed.

(** X1. Over a directory the walk gets through, [crawlDirectory] is the
    callback called once on the absolute path of each regular file, in
    depth-first listing order (the files of a directory before the
    entries listed after it), and nothing else; if a call throws, the
    walk stops there with that exception. *)
Theorem walk_calls_callback_per_file dir files f s :
  walkable_entries files = true ->
  crawlDirectory dir (Some (Directory files)) f s
  = for_each f (map (under dir) (files_below (Directory files))) s.
Proof.
  intros Hwalk. unfold crawlDirectory.
  rewrite crawlDirectory_at_Directory, files_below_Directory.
  now apply crawl_entries_walkable.
Qed.

Lemma walk_calls_callback_per_file_witness :
  crawlDirectory "/work/www" (Some Sample.odd_site) Sample.note []
  = for_each Sample.note
      [ "/work/www/img/logo.png"; "/work/www/data.xyz";
        "/work/www/index.html" ] [].
Proof.
  exact (walk_calls_callback_per_file "/work/www"
           [ ("img", Directory [ ("logo.png", File) ]);
             ("queue", Special);
             ("data.xyz", File);
             ("index.html", File) ]
           Sample.note [] eq_refl).
Defined.

(** X2. The walk of a directory is the walk of the first entries of its
    listing followed by the walk of the remaining ones: the second part
    runs in the state the first part leaves, and not at all if the first
    part throws. *)
Theorem walk_of_split_listing dir f before after s :
  crawlDirectory dir (Some (Directory (before ++ after))) f s
  = (crawlDirectory dir (Some (Directory before)) f ;;;
     crawlDirectory dir (Some (Directory after)) f) s.
Proof.
  unfold crawlDirectory. unfold bind.
  rewrite !crawlDirectory_at_Directory, crawl_entries_app. unfold bind.
  destruct (crawl_entries dir f before s) as [s1 [ [] | e ]]; reflexivity.
Qed.

(** X3. Once the walk throws, the entries listed after the failing one
    count for nothing: they are not looked at, the callback is not called
    for them, and the state and the error are those of the walk up to
    the failure. *)
Theorem nothing_visited_after_failure dir f before after s e :
  snd (crawlDirectory dir (Some (Directory before)) f s) = Throw e ->
  crawlDirectory dir (Some (Directory (before ++ after))) f s
  = crawlDirectory dir (Some (Directory before)) f s.
Proof.
  unfold crawlDirectory. rewrite !crawlDirectory_at_Directory.
  intros Hthrow. rewrite crawl_entries_app. unfold bind.
  destruct (crawl_entries dir f before s) as [s1 [ [] | e' ]];
    [ discriminate | reflexivity ].
Qed.

Lemma nothing_visited_after_failure_witness :
  crawlDirectory "/work/www" (Some Sample.broken_site) Sample.note []
  = ([ mkDecl S3BucketObject "/work/www/docs/a.txt" VUndefined None None ],
     Throw (ENOENT "/work/www/gone")).
Proof.
  exact (nothing_visited_after_failure "/work/www" Sample.note
           [ ("docs", Directory [ ("a.txt", File) ]); ("gone", Dangling) ]
           [ ("b.txt", File) ] [] (ENOENT "/work/www/gone") eq_refl).
Defined.

Lemma crawlDirectory_invariant (I : list decl -> Prop) dir n f s :
  (forall p s', String.prefix (dir ++ "/") p = true ->
                I s' -> I (fst (f p s'))) ->
  I s ->
  I (fst (crawlDirectory dir n f s)).
Proof.
  intros Hf Hs. destruct n as [ [ | files | | | ] | ]; try exact Hs.
  unfold crawlDirectory. rewrite crawlDirectory_at_Directory.
  now apply crawl_entries_invariant.
Qed.

(** X4. The walk touches the state only through the callback, and calls
    the callback only on paths that start with the directory walked and a
    slash: a property of the state that every such call keeps holds after
    the walk, whether it returns or throws. *)
Theorem walk_keeps_callback_invariant (I : list decl -> Prop) dir n f s :
  (forall p s', String.prefix (dir ++ "/") p = true ->
                I s' -> I (fst (f p s'))) ->
  I s ->
  I (fst (crawlDirectory dir n f s)).
Proof.
  intros Hf Hs. now apply crawlDirectory_invariant.
Qed.

Lemma walk_keeps_callback_invariant_witness :
  Forall (fun d => String.prefix "/work/www/" (d_name d) = true)
         (fst (crawlDirectory "/work/www" (Some Sample.broken_site)
                              Sample.note [])).
Proof.
  apply (walk_keeps_callback_invariant
           (Forall (fun d => String.prefix "/work/www/" (d_name d) = true))).
  - intros p s' Hp Hs'. unfold Sample.note. cbn [fst].
    apply Forall_app. split; [ exact Hs' | ].
    constructor; [ exact Hp | constructor ].
  - constructor.
Defined.

(** X5. Whether the walk returns, and the error it throws if it does not,
    depend on the tree alone: they are the same for any two callbacks
    that return and any two states. *)
Theorem walk_outcome_independent_of_callback dir n f g s s' :
  never_throws f -> never_throws g ->
  snd (crawlDirectory dir n f s) = snd (crawlDirectory dir n g s').
Proof.
  intros Hf Hg. destruct n as [ [ | files | | | ] | ]; try reflexivity.
  unfold crawlDirectory. rewrite !crawlDirectory_at_Directory.
  now apply crawl_entries_outcome.
Qed.

Lemma walk_outcome_independent_of_callback_witness :
  snd (crawlDirectory "/work/www" (Some Sample.broken_site) Sample.note [])
  = snd (crawlDirectory "/work/www" (Some Sample.broken_site)
           (upload Sample.broken_world borisBucket) [bucket_decl]).
Proof.
  apply walk_outcome_independent_of_callback.
  - intros p s. eexists. reflexivity.
  - intros p s. eexists. reflexivity.
Defined.

(** X6. With a callback that returns, the walk returns exactly when its
    root is a directory in which no entry is a link to nothing and no
    directory denies its listing, at any depth; a root that is missing or
    not a directory, or one such entry anywhere, makes it throw. *)
Theorem walk_returns_iff_walkable dir n f s :
  never_throws f ->
  (snd (crawlDirectory dir n f s) = Ok tt <-> walkable_root n = true).
Proof.
  intros Hf. destruct n as [ [ | files | | | ] | ];
    try (split; discriminate).
  unfold crawlDirectory, walkable_root.
  rewrite crawlDirectory_at_Directory, walkable_Directory.
  split.
  - intros Hok. destruct (walkable_entries files) eqn:Hwalk; [ reflexivity | ].
    destruct (crawl_entries_throws files dir f s Hwalk) as [e He].
    rewrite He in Hok. discriminate.
  - intros Hwalk. rewrite (crawl_entries_walkable files dir f s Hwalk).
    now apply for_each_returns.
Qed.

Lemma walk_returns_iff_walkable_witness :
  snd (crawlDirectory "/work/www" (Some Sample.odd_site) Sample.note [])
  = Ok tt.
Proof.
  apply (walk_returns_iff_walkable "/work/www" (Some Sample.odd_site)
           Sample.note []).
  - intros p s. eexists. reflexivity.
  - reflexivity.
Defined.

(** X7. When the run throws, the error is an error of the file system
    about the asset root itself or about a path below it. *)
Theorem run_error_is_about_a_path_under_the_root w e :
  outcome w = Throw e ->
  error_path e = wwwDir w
  \/ String.prefix (wwwDir w ++ "/") (error_path e) = true.
Proof.
  unfold outcome. rewrite run_steps.
  destruct (www w) as [ [ | files | | | ] | ];
    try (simpl; intros [= <-]; now left).
  unfold crawlDirectory. rewrite crawlDirectory_at_Directory.
  intros Hthrow. right.
  apply (crawl_entries_error_path (upload w borisBucket) files
           (upload_never_throws w) (wwwDir w) [bucket_decl]).
  destruct (crawl_entries _ _ _ _) as [s1 [ [] | e' ]];
    [ discriminate | exact Hthrow ].
Qed.

Lemma run_error_is_about_a_path_under_the_root_witness :
  outcome Sample.broken_world = Throw (ENOENT "/work/www/gone")
  /\ String.prefix "/work/www/" "/work/www/gone" = true.
Proof.
  split; [ reflexivity | ].
  destruct (run_error_is_about_a_path_under_the_root Sample.broken_world
              (ENOENT "/work/www/gone") eq_refl) as [H | H].
  - discriminate H.
  - exact H.
Defined.

(** ** The declarations of a run *)

Lemma skeleton_of_throwing_run w paths :
  skeleton (bucket_decl :: map (object_of w) paths) = [bucket_decl].
Proof.
  change (bucket_decl :: map (object_of w) paths)
    with ([bucket_decl] ++ map (object_of w) paths)%list.
  now rewrite skeleton_app, skeleton_of_map.
Qed.

(** X8. The skeleton of a run is all or nearly nothing: a run that
    returns has declared the storage bucket and the eight other fixed
    declarations, whatever the tree; a run that throws has declared the
    storage bucket and no other fixed declaration (what else it declared
    are objects). *)
Theorem skeleton_by_outcome w :
  skeleton (declarations w)
  = match outcome w with
    | Ok _ => bucket_decl :: infrastructure
    | Throw _ => [bucket_decl]
    end.
Proof.
  destruct (run_any w) as [paths [[-> [e ->]] | [-> ->]]].
  - apply skeleton_of_throwing_run.
  - apply skeleton_of_run.
Qed.

(** The declarations of any run keep a property that the bucket and the
    fixed declarations have and that [upload] gives every object it
    registers for a path below the asset root. *)
Lemma declarations_forall_under (P : decl -> Prop) w :
  P bucket_decl ->
  (forall path, String.prefix (wwwDir w ++ "/") path = true ->
                P (object_of w path)) ->
  Forall P infrastructure ->
  Forall P (declarations w).
Proof.
  intros Hb Ho Hi. unfold declarations. rewrite run_steps.
  assert (Hwalk : Forall P (fst (crawlDirectory (wwwDir w) (www w)
                                   (upload w borisBucket) [bucket_decl]))).
  { apply crawlDirectory_invariant.
    - intros p s' Hp Hs'.
      change (fst (upload w borisBucket p s'))
        with (s' ++ [object_of w p])%list.
      apply Forall_app. split; [ exact Hs' | ].
      constructor; [ now apply Ho | constructor ].
    - constructor; [ exact Hb | constructor ]. }
  destruct (crawlDirectory _ _ _ _) as [s1 [ [] | e ]]; simpl in *.
  - apply Forall_app. now split.
  - exact Hwalk.
Qed.

(** X9. In every run, returning or throwing, each object declaration has
    its key as logical name, the acl [public-read], the storage bucket as
    bucket and as parent, no provider, and as source the file whose path
    is the asset root, a slash and the key: the key and the root give the
    file back. *)
Theorem object_declaration_shape w d :
  In d (declarations w) ->
  is_object d = true ->
  key_of d = VStr (d_name d)
  /\ field "acl" (d_args d) = VStr "public-read"
  /\ field "bucket" (d_args d) = VRes borisBucket
  /\ d_parent d = Some borisBucket
  /\ d_provider d = None
  /\ source_of d = VFileAsset (wwwDir w ++ "/" ++ key_string d).
Proof.
  intros Hin. pattern d. revert d Hin. apply Forall_forall.
  apply declarations_forall_under.
  - discriminate.
  - intros path Hp _. apply prefix_split in Hp as [rel ->].
    assert (Hkey : js_replace (wwwDir w ++ "/") "" ((wwwDir w ++ "/") ++ rel)
                   = rel) by apply js_replace_prefix.
    unfold key_string, key_of, source_of, object_of.
    cbn [d_args d_name d_parent d_provider field lookup String.eqb
         Ascii.eqb Bool.eqb].
    rewrite Hkey, append_assoc. repeat split.
  - repeat constructor; discriminate.
Qed.

Lemma object_declaration_shape_witness :
  source_of (object_of Sample.broken_world "/work/www/docs/a.txt")
  = VFileAsset ("/work/www" ++ "/"
                ++ key_string
                     (object_of Sample.broken_world "/work/www/docs/a.txt")).
Proof.
  apply (object_declaration_shape Sample.broken_world
           (object_of Sample.broken_world "/work/www/docs/a.txt")).
  - right. left. reflexivity.
  - reflexivity.
Defined.

(** X10. In every run the content type of an object declaration is
    either [undefined] or a non-empty string: [null] and the empty string
    from the lookup are both turned into [undefined]. *)
Theorem content_type_is_unset_or_nonempty w d :
  In d (declarations w) ->
  is_object d = true ->
  contentType_of d = VUndefined
  \/ exists t, t <> "" /\ contentType_of d = VStr t.
Proof.
  intros Hin. pattern d. revert d Hin. apply Forall_forall.
  apply declarations_forall.
  - discriminate.
  - intros path _.
    change (contentType_of (object_of w path))
      with (js_or (nullable (mime_getType w path)) VUndefined).
    destruct (mime_getType w path) as [ t | ]; [ | now left ].
    unfold js_or, nullable, truthy.
    destruct (String.eqb_spec t ""); [ now left | right ].
    now exists t.
  - repeat constructor; discriminate.
Qed.

Lemma content_type_is_unset_or_nonempty_witness :
  contentType_of (object_of Sample.odd_world "/work/www/data.xyz")
  = VUndefined
  \/ exists t, t <> ""
       /\ contentType_of (object_of Sample.odd_world "/work/www/data.xyz")
          = VStr t.
Proof.
  apply (content_type_is_unset_or_nonempty Sample.odd_world).
  - right. right. left. reflexivity.
  - reflexivity.
Defined.

(** X13. The keys do not depend on where the project is checked out nor
    on the lookup: two runs over the same tree at different asset roots
    give the same keys, in the same order. *)
Theorem keys_independent_of_root_path w1 w2 :
  www w1 = www w2 ->
  walkable_root (www w1) = true ->
  map key_of (objects (declarations w1))
  = map key_of (objects (declarations w2)).
Proof.
  intros Hwww Hroot.
  assert (Hroot2 : walkable_root (www w2) = true) by now rewrite <- Hwww.
  destruct (www w1) as [ T | ] eqn:Hwww1; [ | discriminate ].
  rewrite <- Hwww1 in Hroot.
  rewrite (keys_root w1 T Hwww1 Hroot).
  symmetry. apply keys_root; [ now symmetry | exact Hroot2 ].
Qed.

Lemma keys_independent_of_root_path_witness :
  map key_of (objects (declarations Sample.odd_world))
  = map key_of
      (objects (declarations
                  (mkWorld "/home/ci/site/www" (Some Sample.odd_site)
                           (fun _ => None)))).
Proof.
  exact (keys_independent_of_root_path Sample.odd_world
           (mkWorld "/home/ci/site/www" (Some Sample.odd_site)
                    (fun _ => None))
           eq_refl eq_refl).
Defined.

(** ** References between declarations *)

Lemma rtype_eqb_eq a b : rtype_eqb a b = true -> a = b.
Proof. destruct a, b; simpl; intros H; try discriminate H; reflexivity. Qed.

Lemma resource_eqb_eq a b : resource_eqb a b = true -> a = b.
Proof.
  destruct a as [ta na], b as [tb nb]. unfold resource_eqb. simpl.
  intros H. apply andb_prop in H as [Ht Hn].
  apply rtype_eqb_eq in Ht. apply String.eqb_eq in Hn. now subst.
Qed.

Lemma mem_resource_In r l : mem_resource r l = true -> In r l.
Proof.
  induction l as [ | r' l IH ]; simpl; [ discriminate | ].
  intros H. apply orb_prop in H as [H | H].
  - left. symmetry. now apply resource_eqb_eq.
  - right. now apply IH.
Qed.

Lemma declared_in_order_sound ds :
  forall seen pre d post r,
    declared_in_order seen ds = true ->
    ds = (pre ++ d :: post)%list ->
    In r (decl_refs d) ->
    In r seen \/ In r (map handle pre).
Proof.
  induction ds as [ | x ds IH ]; intros seen pre d post r Hok Hsplit Hr.
  - destruct pre; discriminate.
  - cbn [declared_in_order] in Hok. apply andb_prop in Hok as [Hx Hrest].
    destruct pre as [ | y pre ]; simpl in Hsplit; injection Hsplit as -> ->.
    + left. apply mem_resource_In.
      rewrite forallb_forall in Hx. now apply Hx.
    + destruct (IH _ pre d post r Hrest eq_refl Hr) as [[<- | H] | H].
      * right. now left.
      * now left.
      * right. now right.
Qed.

Lemma declared_in_order_mono ds :
  forall seen seen',
    (forall r, mem_resource r seen = true -> mem_resource r seen' = true) ->
    declared_in_order seen ds = true ->
    declared_in_order seen' ds = true.
Proof.
  induction ds as [ | d ds IH ]; intros seen seen' Hincl Hok;
    [ reflexivity | ].
  cbn [declared_in_order] in *. apply andb_prop in Hok as [Hd Hrest].
  apply andb_true_intro. split.
  - rewrite forallb_forall in *. intros r Hr. apply Hincl. now apply Hd.
  - apply (IH (handle d :: seen)); [ | exact Hrest ].
    intros r. cbn [mem_resource]. intros H.
    apply orb_prop in H as [H | H]; apply orb_true_intro; auto.
Qed.

Lemma refs_contentType o : refs (js_or (nullable o) VUndefined) = [].
Proof.
  destruct o as [ t | ]; [ | reflexivity ].
  unfold js_or, nullable, truthy. now destruct (String.eqb t "").
Qed.

Lemma decl_refs_object_of w path :
  decl_refs (object_of w path) = [ borisBucket; borisBucket ].
Proof.
  unfold decl_refs, object_of.
  cbn [d_args d_parent d_provider refs option_list app].
  now rewrite refs_contentType.
Qed.

Lemma declared_in_order_objects w paths :
  forall seen tail,
    mem_resource borisBucket seen = true ->
    (forall seen',
        (forall r, mem_resource r seen = true ->
                   mem_resource r seen' = true) ->
        declared_in_order seen' tail = true) ->
    declared_in_order seen (map (object_of w) paths ++ tail) = true.
Proof.
  induction paths as [ | p paths IH ]; intros seen tail Hb Htail.
  - apply Htail. auto.
  - cbn [map app declared_in_order]. rewrite decl_refs_object_of.
    cbn [forallb]. rewrite Hb. cbn [andb].
    apply IH.
    + cbn [mem_resource]. rewrite Hb. apply orb_true_r.
    + intros seen' Hincl. apply Htail. intros r Hr. apply Hincl.
      cbn [mem_resource]. rewrite Hr. apply orb_true_r.
Qed.

Lemma declared_in_order_run w paths tail :
  declared_in_order [borisBucket] tail = true ->
  declared_in_order [] (bucket_decl :: map (object_of w) paths ++ tail) = true.
Proof.
  intros Htail. cbn [declared_in_order].
  change (decl_refs bucket_decl) with (@nil resource).
  change (handle bucket_decl) with borisBucket.
  cbn [forallb andb].
  apply declared_in_order_objects; [ reflexivity | ].
  intros seen' Hincl. now apply (declared_in_order_mono tail [borisBucket]).
Qed.

(** X11. In every run, returning or throwing, a declaration refers (in
    its arguments, as parent or as provider) only to resources declared
    before it: every reference resolves and the references form no
    cycle. *)
Theorem references_point_backward w before d after r :
  declarations w = (before ++ d :: after)%list ->
  In r (decl_refs d) ->
  In r (map handle before).
Proof.
  intros Hsplit Hr.
  assert (Hok : declared_in_order [] (declarations w) = true).
  { destruct (run_any w) as [paths [[-> _] | [-> _]]].
    - rewrite <- (app_nil_r (map (object_of w) paths)).
      now apply declared_in_order_run.
    - now apply declared_in_order_run. }
  destruct (declared_in_order_sound _ _ _ _ _ _ Hok Hsplit Hr) as [[] | H].
  exact H.
Qed.

Lemma references_point_backward_witness :
  In certificate
     (map handle
        (firstn 8 (declarations Sample.site_world))).
Proof.
  apply (references_point_backward Sample.site_world
           (firstn 8 (declarations Sample.site_world))
           (nth 8 (declarations Sample.site_world) bucket_decl)
           (skipn 9 (declarations Sample.site_world))).
  - reflexivity.
  - left. reflexivity.
Defined.

(** ** Logical names *)

Lemma handle_object_of w segs :
  handle (object_of w (under (wwwDir w) segs))
  = mkResource S3BucketObject (join_segments segs).
Proof.
  change (handle (object_of w (under (wwwDir w) segs)))
    with (mkResource S3BucketObject
            (js_replace (wwwDir w ++ "/") "" (under (wwwDir w) segs))).
  unfold under. now rewrite <- append_assoc, js_replace_prefix.
Qed.

(** X12. In a run over a tree the walk gets through and that is named as
    a file system names its entries, no two declarations have the same
    type and logical name: the engine is handed no duplicate resource. *)
Theorem logical_names_are_unique w T :
  www w = Some T ->
  walkable_root (www w) = true ->
  well_named T = true ->
  NoDup (map handle (declarations w)).
Proof.
  intros Hwww Hroot Hwn.
  destruct (run_root w T Hwww Hroot) as [-> _].
  destruct (files_below_well_named T Hwn) as [ND Hnames].
  pose proof (files_below_nonempty T) as Hne.
  rewrite Forall_forall in Hnames, Hne.
  cbn [map]. rewrite map_app, !map_map.
  rewrite (map_ext _ _ (handle_object_of w)).
  assert (Hobj : forall r,
            In r (map (fun segs => mkResource S3BucketObject
                                     (join_segments segs)) (files_below T)) ->
            r_type r = S3BucketObject).
  { intros r Hin. apply in_map_iff in Hin as (segs & <- & _). reflexivity. }
  constructor.
  - intros Hin. apply in_app_or in Hin as [Hin | Hin].
    + apply Hobj in Hin. discriminate Hin.
    + simpl in Hin. intuition discriminate.
  - apply NoDup_app.
    + apply NoDup_map_NoDup_ForallPairs; [ | exact ND ].
      intros a b Ha Hb [= Heq]. apply join_segments_inj; auto.
    + repeat constructor; simpl; intuition discriminate.
    + intros r Hin1 Hin2. apply Hobj in Hin1.
      simpl in Hin2.
      repeat match goal with
             | H : _ \/ _ |- _ => destruct H as [ <- | H ]
             end; try discriminate Hin1; contradiction.
Qed.

Lemma logical_names_are_unique_witness :
  NoDup (map handle (declarations Sample.odd_world)).
Proof.
  exact (logical_names_are_unique Sample.odd_world Sample.odd_site
           eq_refl eq_refl eq_refl).
Defined.

(** ** Partial runs and empty directories *)

(** X14. A link to nothing in the asset root stops the run part-way: if
    the entries listed before it are walked through, the run has by then
    declared the storage bucket and one object for each regular file
    under those entries, and throws ENOENT for the link; the files listed
    after it and the rest of the skeleton are not declared. *)
Theorem run_stops_at_dangling_entry w before file after :
  www w = Some (Directory (before ++ (file, Dangling) :: after)) ->
  walkable_entries before = true ->
  run w
  = (bucket_decl
     :: map (object_of w)
            (map (under (wwwDir w)) (files_below (Directory before))),
     Throw (ENOENT (wwwDir w ++ "/" ++ file))).
Proof.
  intros Hwww Hwalk. rewrite run_steps, Hwww.
  unfold crawlDirectory.
  rewrite crawlDirectory_at_Directory, crawl_entries_app. unfold bind.
  rewrite (crawl_entries_walkable before _ _ _ Hwalk), upload_registers.
  rewrite crawl_entries_Dangling, files_below_Directory. reflexivity.
Qed.

Lemma run_stops_at_dangling_entry_witness :
  run Sample.broken_world
  = ([ bucket_decl; object_of Sample.broken_world "/work/www/docs/a.txt" ],
     Throw (ENOENT "/work/www/gone")).
Proof.
  exact (run_stops_at_dangling_entry Sample.broken_world
           [ ("docs", Directory [ ("a.txt", File) ]) ] "gone"
           [ ("b.txt", File) ] eq_refl eq_refl).
Defined.

(** X15. A directory the walk gets through and that holds no regular
    file at any depth (an empty directory, or directories of empty
    directories and special files) leaves no trace: with it or without
    it the walk makes the same calls and ends the same. *)
Theorem directory_without_files_is_invisible
    dir f before file files after s :
  walkable_entries files = true ->
  files_below (Directory files) = [] ->
  crawlDirectory dir
    (Some (Directory (before ++ (file, Directory files) :: after))) f s
  = crawlDirectory dir (Some (Directory (before ++ after))) f s.
Proof.
  intros Hwalk Hnone. unfold crawlDirectory.
  rewrite !crawlDirectory_at_Directory, !crawl_entries_app.
  apply bind_ext; [ reflexivity | intros _ s1 ].
  rewrite crawl_entries_Directory. unfold bind at 1.
  rewrite (crawl_entries_walkable files _ f s1 Hwalk).
  rewrite files_below_Directory in Hnone. rewrite Hnone. reflexivity.
Qed.

Lemma directory_without_files_is_invisible_witness :
  crawlDirectory "/work/www"
    (Some (Directory [ ("a.txt", File);
                       ("empty", Directory [ ("deeper", Directory []);
                                             ("pipe", Special) ]);
                       ("b.txt", File) ]))
    Sample.note []
  = crawlDirectory "/work/www"
      (Some (Directory [ ("a.txt", File); ("b.txt", File) ]))
      Sample.note [].
Proof.
  exact (directory_without_files_is_invisible "/work/www" Sample.note
           [ ("a.txt", File) ] "empty"
           [ ("deeper", Directory []); ("pipe", Special) ]
           [ ("b.txt", File) ] [] eq_refl eq_refl).
Defined.
